(** * Pareto analysis of a spreadsheet export: the analysis engine of
      [app/api/analyze/route.ts], its request handler and the page that
      calls it

    The development embeds [parseCSV], [performParetoAnalysis],
    [generateRecommendations], [POST] and the click handler of the page as
    Rocq functions and proves the properties of the analysis report.

    Modelling conventions.
    - A JavaScript string is a [string] of 8-bit characters; the input text is
      taken to stay inside that range.
    - Numbers come twice.  [performParetoAnalysis] is the analysis over exact
      rationals ([Q], equations stated with [==]): decimal literals are read
      at their exact value, the arithmetic does not round and [NaN] only
      arises from [parseFloat], where it is [None].  It carries the
      statements on the structure of a report: ranking, classes, counts and
      recommendations.  The numeric part of the same function, from the
      weights of the rows to the two percentages of every ranked row, is
      embedded a second time as the program computes it, in IEEE-754
      binary64 with rounding to nearest, [Infinity] and [NaN]
      ([paretoShares64]); the statements on the values of the shares are
      made there.
    - A row object is an association list in insertion order, written through
      [obj_set].  [Object.entries] lists the keys that are array indices
      first; statements on the order of the entries leave such keys out.
    - [Array.prototype.sort] is a stable sort (ECMAScript 2019); with a
      consistent comparator its result is the one of a stable insertion
      sort. *)

From Stdlib Require Import String Ascii List Bool Arith ZArith QArith Qabs Qround
  Qpower.
From Stdlib Require Import Lia Lqa Sorting Permutation DecimalString.
Import ListNotations.

Open Scope string_scope.
Open Scope Q_scope.

(** ** Strings *)

Module Str.

Definition LF : ascii := "010"%char.
Definition comma : ascii := ","%char.
Definition quote : ascii := "034"%char.

(** [String.prototype.split] with a one-character separator: never
    returns the empty array. *)
Fixpoint split (sep : ascii) (s : string) : list string :=
  match s with
  | EmptyString => [EmptyString]
  | String c s' =>
      if Ascii.eqb c sep then EmptyString :: split sep s'
      else match split sep s' with
           | [] => [String c EmptyString]
           | w :: ws => String c w :: ws
           end
  end.

(** White space of [String.prototype.trim] among the 8-bit characters:
    TAB, LF, VT, FF, CR, SP and NBSP. *)
Definition isWhiteSpace (c : ascii) : bool :=
  let n := nat_of_ascii c in
  ((9 <=? n) && (n <=? 13) || (n =? 32) || (n =? 160))%nat.

Fixpoint trimStart (s : string) : string :=
  match s with
  | EmptyString => EmptyString
  | String c s' => if isWhiteSpace c then trimStart s' else s
  end.

Fixpoint trimEnd (s : string) : string :=
  match s with
  | EmptyString => EmptyString
  | String c s' =>
      match trimEnd s' with
      | EmptyString => if isWhiteSpace c then EmptyString else String c EmptyString
      | t => String c t
      end
  end.

Definition trim (s : string) : string := trimEnd (trimStart s).

(** A string is truthy when it is not empty. *)
Definition truthy (s : string) : bool :=
  match s with EmptyString => false | _ => true end.

Definition dropLeadingQuote (s : string) : string :=
  match s with
  | String c s' => if Ascii.eqb c quote then s' else s
  | EmptyString => EmptyString
  end.

Fixpoint dropTrailingQuote (s : string) : string :=
  match s with
  | EmptyString => EmptyString
  | String c EmptyString => if Ascii.eqb c quote then EmptyString else s
  | String c s' => String c (dropTrailingQuote s')
  end.

(** [s.replace(/^"|"$/g, '')]: the first alternative can only match at
    index 0 and the second only at the last index, after the first. *)
Definition unquote (s : string) : string :=
  dropTrailingQuote (dropLeadingQuote s).

Definition isDigit (c : ascii) : bool :=
  let n := nat_of_ascii c in ((48 <=? n) && (n <=? 57))%nat.

(** The characters kept by [replace(/[^0-9.-]/g, '')]. *)
Definition isNumericChar (c : ascii) : bool :=
  isDigit c || Ascii.eqb c "."%char || Ascii.eqb c "-"%char.

Fixpoint stripNonNumeric (s : string) : string :=
  match s with
  | EmptyString => EmptyString
  | String c s' =>
      if isNumericChar c then String c (stripNonNumeric s')
      else stripNonNumeric s'
  end.

End Str.

(** ** Row objects *)

Definition JSObject : Type := list (string * string).

Fixpoint obj_update (k v : string) (o : JSObject) : JSObject :=
  match o with
  | [] => [(k, v)]
  | (k', v') :: o' =>
      if String.eqb k' k then (k', v) :: o' else (k', v') :: obj_update k v o'
  end.

(** [row[k] = v] on an object created by [{}], for a string [v]: an existing
    key keeps its place, a new key goes last, and the inherited [__proto__]
    setter ignores a value that is not an object. *)
Definition obj_set (k v : string) (o : JSObject) : JSObject :=
  if String.eqb k "__proto__" then o else obj_update k v o.

(** ** parseCSV *)

(** [headers.forEach((header, index) => row[header] = values[index] || '')];
    a missing value and an empty value both give the empty string. *)
Fixpoint fillRow (headers : list string) (index : nat) (values : list string)
    (row : JSObject) : JSObject :=
  match headers with
  | [] => row
  | header :: rest =>
      fillRow rest (S index) values (obj_set header (nth index values "") row)
  end.

Definition splitCells (line : string) : list string :=
  map (fun v => Str.unquote (Str.trim v)) (Str.split Str.comma line).

(** [csvText.split('\n').filter(line => line.trim())] *)
Definition nonBlankLines (csvText : string) : list string :=
  filter (fun line => Str.truthy (Str.trim line)) (Str.split Str.LF csvText).

Definition parseCSV (csvText : string) : list JSObject :=
  let lines := nonBlankLines csvText in
  match lines with
  | [] => []
  | first :: rest =>
      let headers := splitCells first in
      map (fun line => fillRow headers 0 (splitCells line) []) rest
  end.

(** ** Numbers *)

Definition Qltb (x y : Q) : bool := negb (Qle_bool y x).

(** Leading decimal digits of a string, most significant first, and the
    rest of the string. *)
Fixpoint takeDigits (s : string) : list Z * string :=
  match s with
  | EmptyString => ([], EmptyString)
  | String c s' =>
      if Str.isDigit c then
        let '(ds, rest) := takeDigits s' in
        (Z.of_nat (nat_of_ascii c - 48) :: ds, rest)
      else ([], s)
  end.

Definition digitsValue (ds : list Z) : Z :=
  fold_left (fun acc d => acc * 10 + d)%Z ds 0%Z.

(** [parseFloat] on a string of digits, dots and minus signs (what
    [stripNonNumeric] leaves): the longest prefix of the shape
    [-?digits(.digits?)?] or [-?.digits] is read, [None] is [NaN]. *)
Definition parseFloat (s : string) : option Q :=
  let '(negative, s1) :=
    match s with
    | String c r => if Ascii.eqb c "-"%char then (true, r) else (false, s)
    | EmptyString => (false, s)
    end in
  let '(intDigits, s2) := takeDigits s1 in
  let fracDigits :=
    match s2 with
    | String c r => if Ascii.eqb c "."%char then fst (takeDigits r) else []
    | EmptyString => []
    end in
  match intDigits, fracDigits with
  | [], [] => None
  | _, _ =>
      let magnitude :=
        digitsValue (intDigits ++ fracDigits)
          # Z.to_pos (10 ^ Z.of_nat (length fracDigits)) in
      Some (if negative then - magnitude else magnitude)
  end.

Definition string_of_N (n : Z) : string :=
  NilZero.string_of_uint (N.to_uint (Z.to_N n)).

(** [x.toFixed(1)] below 10^21: the integer [n] nearest to [10 * |x|], the
    larger one on a tie, printed with one digit after the point. *)
Definition toFixed1 (x : Q) : string :=
  let n := Qfloor (Qabs x * 10 + (1 # 2)) in
  (if Qltb x 0 then "-" else "")
    ++ string_of_N (n / 10) ++ "." ++ string_of_N (n mod 10).

(** ** Records of the analysis *)

Record ValuedRow : Type := mkValuedRow {
  vr_rowNumber : nat;
  vr_data : JSObject;
  vr_totalValue : Q;
  vr_numericValues : list Q
}.

Record Metrics : Type := mkMetrics {
  totalValue : Q;
  cumulativePercentage : Q;
  contribution : Q
}.

Record RowAnalysis : Type := mkRowAnalysis {
  rowNumber : nat;
  data : JSObject;
  paretoScore : Q;
  classification : string;
  metrics : Metrics;
  recommendations : list string
}.

Record Summary : Type := mkSummary {
  totalRows : nat;
  highPriority : nat;
  mediumPriority : nat;
  lowPriority : nat;
  summaryTotalValue : Q
}.

Record AnalysisResult : Type := mkAnalysisResult {
  summary : Summary;
  rowAnalyses : list RowAnalysis;
  paretoThreshold : Q
}.

Definition ALTA : string := "Alta Prioridad".
Definition MEDIA : string := "Media Prioridad".
Definition BAJA : string := "Baja Prioridad".

(** ** generateRecommendations *)

Definition push {A : Type} (l : list A) (x : A) : list A := l ++ [x].

Definition TOP20 : string :=
  "⭐ Top 20%: Este elemento es de los más valiosos del conjunto".

Definition generateRecommendations (row : ValuedRow) (classification : string)
    (contribution cumulativePercentage : Q) : list string :=
  let recommendations : list string := [] in
  let recommendations :=
    if String.eqb classification ALTA then
      let recommendations := push recommendations
        ("Esta línea es crítica: representa el " ++ toFixed1 contribution
           ++ "% del valor total") in
      let recommendations := push recommendations
        "Priorizar recursos y atención inmediata en este elemento" in
      let recommendations := push recommendations
        "Implementar seguimiento continuo y métricas de rendimiento" in
      if Qltb 0 (vr_totalValue row) then
        push recommendations
          "Buscar oportunidades de optimización para maximizar el retorno"
      else recommendations
    else if String.eqb classification MEDIA then
      let recommendations := push recommendations
        ("Contribuye con " ++ toFixed1 contribution ++ "% del valor total") in
      let recommendations := push recommendations
        "Mantener seguimiento regular y considerar para optimización secundaria" in
      push recommendations
        "Evaluar si puede mejorarse para entrar en el grupo de alta prioridad"
    else
      let recommendations := push recommendations
        ("Impacto limitado: " ++ toFixed1 contribution ++ "% del valor total") in
      let recommendations := push recommendations
        "Considerar automatización o simplificación de procesos" in
      push recommendations
        "Evaluar si los recursos asignados son proporcionales al impacto" in
  if Qle_bool cumulativePercentage 20 then push recommendations TOP20
  else recommendations.

(** ** performParetoAnalysis *)

(** One step of [Object.entries(row).forEach(...)]: the state is the pair of
    the locals [totalValue] and [numericValues]. *)
Definition valueStep (st : Q * list Q) (entry : string * string) : Q * list Q :=
  match parseFloat (Str.stripNonNumeric (snd entry)) with
  | Some numValue => (fst st + Qabs numValue, push (snd st) numValue)
  | None => st
  end.

Definition valueRow (row : JSObject) (index : nat) : ValuedRow :=
  let st := fold_left valueStep row (0, []) in
  {| vr_rowNumber := index + 1;
     vr_data := row;
     vr_totalValue := fst st;
     vr_numericValues := snd st |}.

(** [array.map((x, index) => f x index)], from a starting index. *)
Fixpoint mapIndexed {A B : Type} (f : A -> nat -> B) (index : nat) (l : list A)
    : list B :=
  match l with
  | [] => []
  | x :: l' => f x index :: mapIndexed f (S index) l'
  end.

Section Sort.

Context {A : Type} (compareFn : A -> A -> Q).

(** [x] moves past [y] only when [compareFn x y > 0], so equal elements
    keep their order. *)
Fixpoint sortInsert (x : A) (l : list A) : list A :=
  match l with
  | [] => [x]
  | y :: l' =>
      if Qltb 0 (compareFn x y) then y :: sortInsert x l' else x :: y :: l'
  end.

Fixpoint sort (l : list A) : list A :=
  match l with
  | [] => []
  | x :: l' => sortInsert x (sort l')
  end.

(** [ranks before a b]: [a] may stand before [b] in the result, either
    because the comparator orders them strictly, or because it leaves them
    equal and [a] came first ([before a b]). *)
Definition ranks (before : A -> A -> Prop) (a b : A) : Prop :=
  compareFn b a > 0
  \/ (compareFn a b <= 0 /\ compareFn b a <= 0 /\ before a b).

End Sort.

Definition byTotalValueDesc (a b : ValuedRow) : Q :=
  vr_totalValue b - vr_totalValue a.

(** Lines 127-137: the class and the score of a row. *)
Definition classify (contribution cumulativePercentage : Q) : string * Q :=
  let classification := BAJA in
  let paretoScore := contribution in
  if Qle_bool cumulativePercentage 80 then (ALTA, paretoScore + 30)
  else if Qle_bool cumulativePercentage 95 then (MEDIA, paretoScore + 15)
  else (classification, paretoScore).

(** The callback of the second [map]; [cumulativeValue] is the variable the
    closure updates, passed in and out. *)
Definition analyzeRow (grandTotal cumulativeValue : Q) (row : ValuedRow)
    : Q * RowAnalysis :=
  let cumulativeValue := cumulativeValue + vr_totalValue row in
  let contribution :=
    if Qltb 0 grandTotal then (vr_totalValue row / grandTotal) * 100 else 0 in
  let cumulativePercentage :=
    if Qltb 0 grandTotal then (cumulativeValue / grandTotal) * 100 else 0 in
  let '(classification, paretoScore) :=
    classify contribution cumulativePercentage in
  let recommendations :=
    generateRecommendations row classification contribution
      cumulativePercentage in
  (cumulativeValue,
   {| rowNumber := vr_rowNumber row;
      data := vr_data row;
      paretoScore := paretoScore;
      classification := classification;
      metrics := {| totalValue := vr_totalValue row;
                    cumulativePercentage := cumulativePercentage;
                    contribution := contribution |};
      recommendations := recommendations |}).

Fixpoint analyzeRows (grandTotal cumulativeValue : Q) (rows : list ValuedRow)
    : list RowAnalysis :=
  match rows with
  | [] => []
  | row :: rest =>
      let '(cumulativeValue, r) := analyzeRow grandTotal cumulativeValue row in
      r :: analyzeRows grandTotal cumulativeValue rest
  end.

Definition countClass (c : string) (l : list RowAnalysis) : nat :=
  length (filter (fun r => String.eqb (classification r) c) l).

Definition rankedRows (rows : list JSObject) : list ValuedRow :=
  sort byTotalValueDesc (mapIndexed valueRow 0 rows).

Definition sumTotalValue (l : list ValuedRow) : Q :=
  fold_left (fun sum row => sum + vr_totalValue row) l 0.

Definition performParetoAnalysis (rows : list JSObject) : AnalysisResult :=
  let rowsWithValues := rankedRows rows in
  let grandTotal := sumTotalValue rowsWithValues in
  let rowAnalyses := analyzeRows grandTotal 0 rowsWithValues in
  let summary :=
    {| totalRows := length rowAnalyses;
       highPriority := countClass ALTA rowAnalyses;
       mediumPriority := countClass MEDIA rowAnalyses;
       lowPriority := countClass BAJA rowAnalyses;
       summaryTotalValue := grandTotal |} in
  {| summary := summary; rowAnalyses := rowAnalyses; paretoThreshold := 80 |}.

(** ** The core of POST *)

Definition EMPTY_SHEET : string := "La hoja de cálculo está vacía".

(** Lines 54-64 of [POST], from the fetched text on: a [throw] is the left
    injection of the error message. *)
Definition analyzeText (csvText : string) : string + AnalysisResult :=
  let rows := parseCSV csvText in
  if (length rows =? 0)%nat then inl EMPTY_SHEET
  else inr (performParetoAnalysis rows).

(** ** Vocabulary of the statements *)

Definition Qsum (l : list Q) : Q := fold_right Qplus 0 l.

(** The numbers a row converts to, in entry order. *)
Definition convertedNumbers (row : JSObject) : list Q :=
  flat_map (fun entry =>
              match parseFloat (Str.stripNonNumeric (snd entry)) with
              | Some numValue => [numValue]
              | None => []
              end) row.

Definition hasNumericField (row : JSObject) : bool :=
  existsb (fun entry =>
             match parseFloat (Str.stripNonNumeric (snd entry)) with
             | Some _ => true
             | None => false
             end) row.

Definition shareOf (grandTotal x : Q) : Q :=
  if Qltb 0 grandTotal then (x / grandTotal) * 100 else 0.

Definition contributionOf (r : RowAnalysis) : Q := contribution (metrics r).
Definition cumulativeOf (r : RowAnalysis) : Q := cumulativePercentage (metrics r).

(** The key of a row for the ranking: its weight and its original position. *)
Definition valuedKey (v : ValuedRow) : Q * nat := (vr_totalValue v, vr_rowNumber v).
Definition analysisKey (r : RowAnalysis) : Q * nat :=
  (totalValue (metrics r), rowNumber r).

Definition earlier (a b : ValuedRow) : Prop :=
  (vr_rowNumber a < vr_rowNumber b)%nat.

(** On keys (weight, original position): the heavier first, and among equal
    weights the earlier first. *)
Definition rankedBefore (a b : Q * nat) : Prop :=
  fst b < fst a \/ (fst a == fst b /\ (snd a < snd b)%nat).

(** The messages of a class in the order of section 4.5 of the
    specification, written from its words, to be compared with
    [generateRecommendations]. *)
Definition tierMessages (classification : string) (share weight : Q)
    : list string :=
  if String.eqb classification ALTA then
    ["Esta línea es crítica: representa el " ++ toFixed1 share
       ++ "% del valor total";
     "Priorizar recursos y atención inmediata en este elemento";
     "Implementar seguimiento continuo y métricas de rendimiento"]
    ++ (if Qltb 0 weight
        then ["Buscar oportunidades de optimización para maximizar el retorno"]
        else [])
  else if String.eqb classification MEDIA then
    ["Contribuye con " ++ toFixed1 share ++ "% del valor total";
     "Mantener seguimiento regular y considerar para optimización secundaria";
     "Evaluar si puede mejorarse para entrar en el grupo de alta prioridad"]
  else
    ["Impacto limitado: " ++ toFixed1 share ++ "% del valor total";
     "Considerar automatización o simplificación de procesos";
     "Evaluar si los recursos asignados son proporcionales al impacto"].

Definition newline : string := String Str.LF EmptyString.

(** Scenario A of the specification: [name,val / A,10 / B,90]. *)
Definition scenarioA : string :=
  "name,val" ++ newline ++ "A,10" ++ newline ++ "B,90".

(** Scenario C of the specification: [id,name / 1,Alice]. *)
Definition scenarioC : string := "id,name" ++ newline ++ "1,Alice".

(** The file of the zero-weight scenario: a header and one row without a
    number. *)
Definition scenarioNoNumbers : string := "name" ++ newline ++ "Alice".

(** Two rows of weight 5 around one of weight 7. *)
Definition scenarioTies : string :=
  "name,val" ++ newline ++ "A,5" ++ newline ++ "B,7" ++ newline ++ "C,5".

Definition noRow : RowAnalysis :=
  mkRowAnalysis 0 [] 0 "" (mkMetrics 0 0 0) [].

(** ** The request handler *)

(** [s.includes(needle)] *)
Fixpoint includes (needle s : string) : bool :=
  String.prefix needle s
  || match s with
     | EmptyString => false
     | String _ s' => includes needle s'
     end.

(** The class [[a-zA-Z0-9-_]]: letters, digits, the minus sign and the
    underscore. *)
Definition isIdChar (c : ascii) : bool :=
  let n := nat_of_ascii c in
  ((97 <=? n) && (n <=? 122) || (65 <=? n) && (n <=? 90)
   || (48 <=? n) && (n <=? 57) || (n =? 45) || (n =? 95))%nat.

(** The longest run of class characters at the head of [s]: what the greedy
    group [([a-zA-Z0-9-_]+)] takes. *)
Fixpoint takeIdChars (s : string) : string :=
  match s with
  | EmptyString => EmptyString
  | String c s' => if isIdChar c then String c (takeIdChars s') else EmptyString
  end.

(** [sheetUrl.match(/\/d\/([a-zA-Z0-9-_]+)/)?.[1]]: the group of the leftmost
    match, [None] when nothing matches. *)
Fixpoint matchSheetId (s : string) : option string :=
  match s with
  | EmptyString => None
  | String c s' =>
      match s with
      | String "/" (String "d" (String "/" rest)) =>
          let group := takeIdChars rest in
          if Str.truthy group then Some group else matchSheetId s'
      | _ => matchSheetId s'
      end
  end.

(** Lines 39-46: a Google Sheets address becomes the address of its CSV
    export. *)
Definition toCsvUrl (sheetUrl : string) : string :=
  let csvUrl := sheetUrl in
  if includes "docs.google.com/spreadsheets" sheetUrl then
    match matchSheetId sheetUrl with
    | Some sheetId =>
        if Str.truthy sheetId then
          "https://docs.google.com/spreadsheets/d/" ++ sheetId
            ++ "/export?format=csv"
        else csvUrl
    | None => csvUrl
    end
  else csvUrl.

(** What [await request.json()] gives: a rejection, or a body whose
    [sheetUrl] is a string or is missing. *)
Inductive JsonRequest : Type :=
| InvalidJson (message : string)
| JsonBody (sheetUrl : option string).

(** What [await fetch(csvUrl)] followed by [await response.text()] gives: a
    rejection of either promise, or a response with its [ok] flag and its
    text. *)
Inductive FetchOutcome : Type :=
| Rejects (message : string)
| Responds (ok : bool) (text : string).

Inductive ResponseBody : Type :=
| ErrorBody (error : string)
| AnalysisBody (analysis : AnalysisResult).

Record HttpResponse : Type := mkHttpResponse {
  status : nat;
  body : ResponseBody
}.

Definition URL_REQUIRED : string := "URL de hoja de cálculo requerida".
Definition NOT_ACCESSIBLE : string :=
  "No se pudo acceder a la hoja de cálculo. Asegúrate de que sea pública.".
Definition ANALYZE_ERROR : string := "Error al analizar la hoja de cálculo".

(** The [catch] of [POST]: [error.message || '...'] with status 500. *)
Definition caught (message : string) : HttpResponse :=
  {| status := 500;
     body := ErrorBody (if Str.truthy message then message else ANALYZE_ERROR) |}.

(** [POST]: the result is the list of the addresses given to [fetch], in
    order, and the response. *)
Definition POST (request : JsonRequest) (fetch : string -> FetchOutcome)
    : list string * HttpResponse :=
  match request with
  | InvalidJson message => ([], caught message)
  | JsonBody sheetUrl =>
      match sheetUrl with
      | None => ([], {| status := 400; body := ErrorBody URL_REQUIRED |})
      | Some sheetUrl =>
          if negb (Str.truthy sheetUrl) then
            ([], {| status := 400; body := ErrorBody URL_REQUIRED |})
          else
            let csvUrl := toCsvUrl sheetUrl in
            ([csvUrl],
             match fetch csvUrl with
             | Rejects message => caught message
             | Responds ok csvText =>
                 if negb ok then caught NOT_ACCESSIBLE
                 else match analyzeText csvText with
                      | inl message => caught message
                      | inr analysis =>
                          {| status := 200; body := AnalysisBody analysis |}
                      end
             end)
      end
  end.

(** ** The page *)

(** [getScoreClass] of [page.tsx]. *)
Definition getScoreClass (classification : string) : string :=
  if String.eqb classification "Alta Prioridad" then "score-high"
  else if String.eqb classification "Media Prioridad" then "score-medium"
  else if String.eqb classification "Baja Prioridad" then "score-low"
  else "score-medium".






(** ** Vocabulary for the handler and the page *)

Definition allIdChars (s : string) : bool :=
  forallb isIdChar (list_ascii_of_string s).

Definition startsWithIdChar (s : string) : bool :=
  match s with
  | EmptyString => false
  | String c _ => isIdChar c
  end.

Definition exportUrl (sheetId : string) : string :=
  "https://docs.google.com/spreadsheets/d/" ++ sheetId ++ "/export?format=csv".


(** The response of the handler once the fetch has come back (lines 49-64
    and the [catch]). *)
Definition answer (outcome : FetchOutcome) : HttpResponse :=
  match outcome with
  | Rejects message => caught message
  | Responds ok csvText =>
      if negb ok then caught NOT_ACCESSIBLE
      else match analyzeText csvText with
           | inl message => caught message
           | inr analysis => {| status := 200; body := AnalysisBody analysis |}
           end
  end.

(** ** Vocabulary for the parser *)

Definition CR : ascii := "013"%char.

(** The records of the non-blank lines [rest] under the header line
    [first]. *)
Definition recordsOf (first : string) (rest : list string) : list JSObject :=
  map (fun line => fillRow (splitCells first) 0 (splitCells line) []) rest.

Definition chars (s : string) : list ascii := list_ascii_of_string s.

(** A key written with digits only: [Object.entries] lists the keys that are
    array indices before the others. *)
Definition integerKey (k : string) : bool :=
  negb (String.eqb k "") && forallb Str.isDigit (chars k).

(** ** Numbers in binary64

    The numbers of the running program are IEEE-754 doubles.  A finite
    double is the rational it stands for; the two infinities and [NaN] are
    values of their own.  The sign of a zero is not kept: -0 only ever
    reaches [numericValues], which nothing reads.  Every operation is the
    exact one followed by [round64], the rounding to the nearest double with
    ties to the even mantissa: 53 significant bits, exponents from -1022 to
    1023, subnormals on the grid of [2^-1074], and [Infinity] from [2^1024]
    on. *)

Definition pow2 (z : Z) : Q := 2 ^ z.

(** The exponent [e] with [2^e <= q < 2^(e+1)], for [q > 0]. *)
Definition ilog2 (q : Q) : Z :=
  let e0 := (Z.log2 (Qnum q) - Z.log2 (Zpos (Qden q)))%Z in
  if Qle_bool (pow2 e0) q then e0 else (e0 - 1)%Z.

(** Round to the nearest integer, ties to the even one. *)
Definition rne (x : Q) : Z :=
  let f := Qfloor x in
  match Qcompare (x - inject_Z f) (1 # 2) with
  | Lt => f
  | Gt => (f + 1)%Z
  | Eq => if Z.even f then f else (f + 1)%Z
  end.

Inductive number : Type :=
| Fin (q : Q)
| Inf (negative : bool)
| NaN.

(** The exponent of the spacing of the doubles around [a > 0]. *)
Definition quantumExp (a : Q) : Z := (Z.max (ilog2 a) (-1022) - 52)%Z.

Definition roundPos (a : Q) : number :=
  let k := quantumExp a in
  let v := inject_Z (rne (a / pow2 k)) * pow2 k in
  if Qle_bool (pow2 1024) v then Inf false else Fin v.

Definition negate (x : number) : number :=
  match x with
  | Fin q => Fin (- q)
  | Inf s => Inf (negb s)
  | NaN => NaN
  end.

Definition round64 (q : Q) : number :=
  match Qcompare q 0 with
  | Eq => Fin 0
  | Gt => roundPos q
  | Lt => negate (roundPos (- q))
  end.

(** The value [roundPos] works with before the overflow test. *)
Definition roundedValue (a : Q) : Q :=
  inject_Z (rne (a / pow2 (quantumExp a))) * pow2 (quantumExp a).

(** A whole number of the smallest subnormal. *)
Definition grid (q : Q) : Prop := exists m : Z, q == inject_Z m * pow2 (-1074).

(** A non-negative rational that is a binary64 value. *)
Definition representable (q : Q) : Prop :=
  q == 0
  \/ (0 < q /\ q < pow2 1024
      /\ exists m : Z, q == inject_Z m * pow2 (quantumExp q)).

(** The unit roundoff and half the smallest subnormal. *)
Definition u : Q := pow2 (-53).
Definition eta : Q := pow2 (-1075).

(** The operators of JavaScript on numbers. *)

Definition isNegative (q : Q) : bool := Qltb q 0.
Definition isZero (q : Q) : bool := Qeq_bool q 0.

Definition add (x y : number) : number :=
  match x, y with
  | Fin a, Fin b => round64 (a + b)
  | Fin _, Inf s => Inf s
  | Inf s, Fin _ => Inf s
  | Inf s, Inf t => if Bool.eqb s t then Inf s else NaN
  | _, _ => NaN
  end.

Definition sub (x y : number) : number := add x (negate y).

Definition mul (x y : number) : number :=
  match x, y with
  | Fin a, Fin b => round64 (a * b)
  | Fin a, Inf s => if isZero a then NaN else Inf (xorb (isNegative a) s)
  | Inf s, Fin b => if isZero b then NaN else Inf (xorb s (isNegative b))
  | Inf s, Inf t => Inf (xorb s t)
  | _, _ => NaN
  end.

Definition div (x y : number) : number :=
  match x, y with
  | Fin a, Fin b =>
      if isZero b then (if isZero a then NaN else Inf (isNegative a))
      else round64 (a / b)
  | Fin _, Inf _ => Fin 0
  | Inf s, Fin b => Inf (xorb s (isNegative b))
  | _, _ => NaN
  end.

Definition abs (x : number) : number :=
  match x with
  | Fin a => Fin (Qabs a)
  | Inf _ => Inf false
  | NaN => NaN
  end.

(** [x > y] *)
Definition gtb (x y : number) : bool :=
  match x, y with
  | Fin a, Fin b => Qltb b a
  | Inf false, Fin _ => true
  | Fin _, Inf true => true
  | Inf false, Inf true => true
  | _, _ => false
  end.

Definition hundred : number := Fin 100.
Definition zero : number := Fin 0.

(** ** The weights and the percentages in binary64

    The numeric part of [performParetoAnalysis] as the program computes it:
    the weight of a row ([totalValue += Math.abs(numValue)] over the
    entries, [parseFloat] giving the double nearest to the decimal it
    reads), the ranking by [b.totalValue - a.totalValue], the total
    ([reduce]) and, for every ranked row, [contribution] and
    [cumulativePercentage]. *)

Record ValuedRow64 : Type := mkValuedRow64 {
  v64_rowNumber : nat;
  v64_data : JSObject;
  v64_totalValue : number;
  v64_numericValues : list number
}.

Definition valueStep64 (st : number * list number) (entry : string * string)
    : number * list number :=
  match parseFloat (Str.stripNonNumeric (snd entry)) with
  | Some mv =>
      let numValue := round64 mv in
      (add (fst st) (abs numValue), push (snd st) numValue)
  | None => st
  end.

Definition valueRow64 (row : JSObject) (index : nat) : ValuedRow64 :=
  let st := fold_left valueStep64 row (zero, []) in
  {| v64_rowNumber := index + 1;
     v64_data := row;
     v64_totalValue := fst st;
     v64_numericValues := snd st |}.

Fixpoint sortInsert64 {A : Type} (compareFn : A -> A -> number) (x : A)
    (l : list A) : list A :=
  match l with
  | [] => [x]
  | y :: l' =>
      if gtb (compareFn x y) zero then y :: sortInsert64 compareFn x l'
      else x :: y :: l'
  end.

Fixpoint sort64 {A : Type} (compareFn : A -> A -> number) (l : list A) : list A :=
  match l with
  | [] => []
  | x :: l' => sortInsert64 compareFn x (sort64 compareFn l')
  end.

Definition byTotalValueDesc64 (a b : ValuedRow64) : number :=
  sub (v64_totalValue b) (v64_totalValue a).

Definition rankedRows64 (rows : list JSObject) : list ValuedRow64 :=
  sort64 byTotalValueDesc64 (mapIndexed valueRow64 0 rows).

Definition sumTotalValue64 (l : list ValuedRow64) : number :=
  fold_left (fun sum row => add sum (v64_totalValue row)) l zero.

Record Shares64 : Type := mkShares64 {
  s64_rowNumber : nat;
  s64_totalValue : number;
  s64_contribution : number;
  s64_cumulativePercentage : number
}.

Definition shareOf64 (grandTotal x : number) : number :=
  if gtb grandTotal zero then mul (div x grandTotal) hundred else zero.

Fixpoint shares64 (grandTotal cumulativeValue : number) (rows : list ValuedRow64)
    : list Shares64 :=
  match rows with
  | [] => []
  | row :: rest =>
      let cumulativeValue := add cumulativeValue (v64_totalValue row) in
      let contribution := shareOf64 grandTotal (v64_totalValue row) in
      let cumulativePercentage := shareOf64 grandTotal cumulativeValue in
      {| s64_rowNumber := v64_rowNumber row;
         s64_totalValue := v64_totalValue row;
         s64_contribution := contribution;
         s64_cumulativePercentage := cumulativePercentage |}
        :: shares64 grandTotal cumulativeValue rest
  end.

Definition grandTotal64 (rows : list JSObject) : number :=
  sumTotalValue64 (rankedRows64 rows).

Definition paretoShares64 (rows : list JSObject) : list Shares64 :=
  shares64 (grandTotal64 rows) zero (rankedRows64 rows).

(** A sheet with a cell of 400 nines. *)
Definition nines (n : nat) : string := string_of_list_ascii (repeat "9"%char n).
Definition overflowText : string :=
  "n,v" ++ newline ++ "A," ++ nines 400 ++ newline ++ "B,1".

(** A weight: a non-negative binary64 value or +Infinity. *)
Definition weight (x : number) : Prop :=
  match x with
  | Fin q => representable q
  | Inf s => s = false
  | NaN => False
  end.

(** The rational a number stands for, 0 when it is not finite. *)
Definition num (x : number) : Q := match x with Fin q => q | _ => 0 end.

Definition isFin (x : number) : Prop := match x with Fin _ => True | _ => False end.

Definition weighs (v : ValuedRow64) : Prop := weight (v64_totalValue v).

(** The running sum of the weights, from [c] on. *)
Definition sumFrom (c : number) (l : list ValuedRow64) : number :=
  fold_left (fun sum row => add sum (v64_totalValue row)) l c.

Definition cum64 (s : Shares64) : Q := num (s64_cumulativePercentage s).
Definition contrib64 (s : Shares64) : Q := num (s64_contribution s).

Definition weightOf (v : ValuedRow64) : Q := num (v64_totalValue v).

Definition len {A : Type} (l : list A) : Q := inject_Z (Z.of_nat (length l)).

(** A JavaScript array holds fewer than [2^32] elements. *)
Definition maxRows : Q := inject_Z (2 ^ 32).

(** The tolerance of 1e-6, relative to 100. *)
Definition tolerance : Q := 100 * (1 # 1000000).

(** The sum of a list of numbers as the program would add them up. *)
Definition sumNumbers (l : list number) : number := fold_left add l zero.

(** * Properties *)

(** ** Comparisons *)

Lemma Qltb_lt (x y : Q) : Qltb x y = true <-> x < y.
Proof.
  unfold Qltb. rewrite negb_true_iff, <- not_true_iff_false, Qle_bool_iff.
  split; [apply Qnot_le_lt | apply Qlt_not_le].
Qed.

Lemma Qltb_ge (x y : Q) : Qltb x y = false <-> y <= x.
Proof.
  unfold Qltb. rewrite negb_false_iff. apply Qle_bool_iff.
Qed.

Lemma Qle_bool_gt (x y : Q) : Qle_bool x y = false <-> y < x.
Proof.
  rewrite <- not_true_iff_false, Qle_bool_iff.
  split; [apply Qnot_le_lt | apply Qlt_not_le].
Qed.

(** ** The sort *)

Section SortFacts.

Context {A : Type} (compareFn : A -> A -> Q).

Lemma sortInsert_perm (x : A) (l : list A) :
  Permutation (x :: l) (sortInsert compareFn x l).
Proof.
  induction l as [|y l IH]; simpl; [reflexivity|].
  destruct (Qltb 0 (compareFn x y)); [|reflexivity].
  rewrite perm_swap. now apply perm_skip.
Qed.

Lemma sort_perm (l : list A) : Permutation l (sort compareFn l).
Proof.
  induction l as [|x l IH]; simpl; [reflexivity|].
  rewrite <- sortInsert_perm. now apply perm_skip.
Qed.

Lemma sort_length (l : list A) : length (sort compareFn l) = length l.
Proof. symmetry. apply Permutation_length, sort_perm. Qed.

Lemma sort_In (x : A) (l : list A) : In x (sort compareFn l) <-> In x l.
Proof.
  split; apply Permutation_in; [symmetry|]; apply sort_perm.
Qed.

Lemma sort_Forall (P : A -> Prop) (l : list A) :
  Forall P l -> Forall P (sort compareFn l).
Proof.
  rewrite !Forall_forall. intros H x Hx. now apply H, sort_In.
Qed.

Variable before : A -> A -> Prop.

Hypothesis compare_trans : forall a b c,
  compareFn a b <= 0 -> compareFn b c <= 0 -> compareFn a c <= 0.
Hypothesis compare_asym : forall a b, compareFn a b > 0 -> compareFn b a <= 0.

Lemma sortInsert_ranks (x : A) (l : list A) :
  StronglySorted (ranks compareFn before) l -> Forall (before x) l ->
  StronglySorted (ranks compareFn before) (sortInsert compareFn x l).
Proof.
  induction l as [|y l IH]; simpl; intros Hs Hb.
  - constructor; constructor.
  - inversion Hs as [|? ? Hs' Hy]; subst.
    inversion Hb as [|? ? Hxy Hb']; subst.
    destruct (Qltb 0 (compareFn x y)) eqn:E.
    + apply Qltb_lt in E. constructor; [now apply IH|].
      rewrite <- sortInsert_perm. constructor; [now left | assumption].
    + apply Qltb_ge in E. constructor; [assumption|].
      assert (Hxy' : ranks compareFn before x y).
      { destruct (Qlt_le_dec 0 (compareFn y x)) as [G|G]; [now left|].
        right. auto. }
      constructor; [assumption|].
      rewrite Forall_forall in Hy, Hb' |- *. intros z Hz.
      specialize (Hy z Hz). specialize (Hb' z Hz).
      destruct (Qlt_le_dec 0 (compareFn z x)) as [G|G]; [now left|].
      right. split; [|split]; try assumption.
      destruct Hy as [Hy|(Hy & _ & _)].
      * apply compare_asym in Hy. now apply compare_trans with y.
      * now apply compare_trans with y.
Qed.

Lemma sort_ranks (l : list A) :
  StronglySorted before l -> StronglySorted (ranks compareFn before) (sort compareFn l).
Proof.
  induction 1 as [|x l Hs IH Hx]; simpl; [constructor|].
  apply sortInsert_ranks; [assumption|]. now apply sort_Forall.
Qed.

End SortFacts.

(** ** Lists *)

Lemma StronglySorted_map {A B : Type} (f : A -> B) (R : B -> B -> Prop)
    (l : list A) :
  StronglySorted (fun a b => R (f a) (f b)) l <-> StronglySorted R (map f l).
Proof.
  induction l as [|x l IH]; simpl.
  - split; constructor.
  - split; intros H; inversion H; subst; constructor;
      try (now apply IH); rewrite Forall_map in *; assumption.
Qed.

Lemma StronglySorted_nth {A : Type} (R : A -> A -> Prop) (l : list A) :
  StronglySorted R l ->
  forall i j a b, (i < j)%nat ->
    nth_error l i = Some a -> nth_error l j = Some b -> R a b.
Proof.
  induction 1 as [|x l Hs IH Hx]; intros i j a b Hij Ha Hb.
  - now destruct i.
  - destruct j as [|j]; [lia|]. simpl in Hb. destruct i as [|i]; simpl in Ha.
    + injection Ha as <-. rewrite Forall_forall in Hx.
      eapply Hx, nth_error_In, Hb.
    + apply (IH i j); [lia | assumption | assumption].
Qed.

Lemma mapIndexed_length {A B : Type} (f : A -> nat -> B) (i : nat) (l : list A) :
  length (mapIndexed f i l) = length l.
Proof.
  revert i. induction l as [|x l IH]; intros i; simpl; [|rewrite IH]; reflexivity.
Qed.

Lemma mapIndexed_In {A B : Type} (f : A -> nat -> B) (l : list A) :
  forall i y, In y (mapIndexed f i l) ->
    exists k x, nth_error l k = Some x /\ y = f x (i + k)%nat.
Proof.
  induction l as [|x l IH]; intros i y H; simpl in H; [contradiction|].
  destruct H as [<-|H].
  - exists 0%nat, x. now rewrite Nat.add_0_r.
  - destruct (IH _ _ H) as (k & x' & Hk & ->).
    exists (S k), x'. split; [assumption|]. f_equal. lia.
Qed.

(** ** The valuation *)

Lemma fold_valueStep (row : JSObject) : forall st,
  fst (fold_left valueStep row st)
    == fst st + Qsum (map Qabs (convertedNumbers row))
  /\ snd (fold_left valueStep row st) = (snd st ++ convertedNumbers row)%list.
Proof.
  induction row as [|entry row IH]; intros st; simpl.
  - split; [ring | now rewrite app_nil_r].
  - destruct (IH (valueStep st entry)) as [IH1 IH2].
    rewrite IH1, IH2. unfold valueStep, push.
    destruct (parseFloat _); simpl; split;
      try ring; try reflexivity; now rewrite <- app_assoc.
Qed.

Lemma valueRow_total (row : JSObject) (index : nat) :
  vr_totalValue (valueRow row index) == Qsum (map Qabs (convertedNumbers row)).
Proof.
  unfold valueRow; simpl.
  destruct (fold_valueStep row (0, [])) as [H _]. rewrite H. simpl. ring.
Qed.

Lemma Qsum_abs_nonneg (l : list Q) : 0 <= Qsum (map Qabs l).
Proof.
  induction l as [|x l IH]; simpl; [apply Qle_refl|].
  pose proof (Qabs_nonneg x). lra.
Qed.

Lemma valueRow_nonneg (row : JSObject) (index : nat) :
  0 <= vr_totalValue (valueRow row index).
Proof. rewrite valueRow_total. apply Qsum_abs_nonneg. Qed.

Lemma convertedNumbers_none (row : JSObject) :
  hasNumericField row = false -> convertedNumbers row = [].
Proof.
  induction row as [|entry row IH]; simpl; [reflexivity|].
  destruct (parseFloat _); simpl; [discriminate | exact IH].
Qed.

Lemma rankedRows_In (rows : list JSObject) (v : ValuedRow) :
  In v (rankedRows rows) ->
  exists k row, nth_error rows k = Some row /\ v = valueRow row k.
Proof.
  unfold rankedRows. rewrite sort_In. intros H.
  destruct (mapIndexed_In _ _ _ _ H) as (k & row & Hk & ->). now exists k, row.
Qed.

Lemma rankedRows_length (rows : list JSObject) :
  length (rankedRows rows) = length rows.
Proof. unfold rankedRows. now rewrite sort_length, mapIndexed_length. Qed.

Lemma rankedRows_nonneg (rows : list JSObject) :
  Forall (fun v => 0 <= vr_totalValue v) (rankedRows rows).
Proof.
  rewrite Forall_forall. intros v Hv.
  destruct (rankedRows_In _ _ Hv) as (k & row & _ & ->). apply valueRow_nonneg.
Qed.

(** ** The annotation pass *)

Lemma analyzeRow_spec (grandTotal cumulativeValue : Q) (row : ValuedRow) :
  let r := snd (analyzeRow grandTotal cumulativeValue row) in
  fst (analyzeRow grandTotal cumulativeValue row)
    = cumulativeValue + vr_totalValue row
  /\ rowNumber r = vr_rowNumber row
  /\ data r = vr_data row
  /\ totalValue (metrics r) = vr_totalValue row
  /\ contribution (metrics r) = shareOf grandTotal (vr_totalValue row)
  /\ cumulativePercentage (metrics r)
       = shareOf grandTotal (cumulativeValue + vr_totalValue row)
  /\ (classification r, paretoScore r)
       = classify (contribution (metrics r)) (cumulativePercentage (metrics r))
  /\ recommendations r
       = generateRecommendations row (classification r)
           (contribution (metrics r)) (cumulativePercentage (metrics r)).
Proof.
  unfold analyzeRow, shareOf.
  destruct (classify _ _) as [c p] eqn:E. simpl. rewrite E. intuition.
Qed.

Lemma analyzeRows_cons (grandTotal cumulativeValue : Q) (row : ValuedRow)
    (rest : list ValuedRow) :
  analyzeRows grandTotal cumulativeValue (row :: rest)
    = snd (analyzeRow grandTotal cumulativeValue row)
        :: analyzeRows grandTotal (cumulativeValue + vr_totalValue row) rest.
Proof.
  simpl. destruct (analyzeRow_spec grandTotal cumulativeValue row) as [H _].
  destruct (analyzeRow _ _ _) as [cv r]. simpl in *. now rewrite H.
Qed.

Lemma analyzeRows_length (grandTotal : Q) (l : list ValuedRow) :
  forall cv, length (analyzeRows grandTotal cv l) = length l.
Proof.
  induction l as [|row l IH]; intros cv; [reflexivity|].
  rewrite analyzeRows_cons. simpl. now rewrite IH.
Qed.

Lemma analyzeRows_In (grandTotal : Q) (l : list ValuedRow) :
  forall cv r, In r (analyzeRows grandTotal cv l) ->
    exists cv' row, In row l /\ r = snd (analyzeRow grandTotal cv' row).
Proof.
  induction l as [|row l IH]; intros cv r H; [contradiction|].
  rewrite analyzeRows_cons in H. destruct H as [<-|H].
  - exists cv, row. split; [now left | reflexivity].
  - destruct (IH _ _ H) as (cv' & row' & Hin & ->).
    exists cv', row'. split; [now right | reflexivity].
Qed.

Lemma analyzeRows_keys (grandTotal : Q) (l : list ValuedRow) :
  forall cv, map analysisKey (analyzeRows grandTotal cv l) = map valuedKey l.
Proof.
  induction l as [|row l IH]; intros cv; [reflexivity|].
  rewrite analyzeRows_cons. simpl. rewrite IH. f_equal.
  destruct (analyzeRow_spec grandTotal cv row) as (_ & H1 & _ & H2 & _).
  unfold analysisKey, valuedKey. now rewrite H1, H2.
Qed.

Lemma analyzeRows_data (grandTotal : Q) (l : list ValuedRow) :
  forall cv, map data (analyzeRows grandTotal cv l) = map vr_data l.
Proof.
  induction l as [|row l IH]; intros cv; [reflexivity|].
  rewrite analyzeRows_cons. simpl. rewrite IH. f_equal.
  now destruct (analyzeRow_spec grandTotal cv row) as (_ & _ & H & _).
Qed.

(** ** The classifier *)

Lemma classify_spec (contribution cumulativePercentage : Q) :
  (cumulativePercentage <= 80 ->
     classify contribution cumulativePercentage = (ALTA, contribution + 30))
  /\ (80 < cumulativePercentage -> cumulativePercentage <= 95 ->
        classify contribution cumulativePercentage = (MEDIA, contribution + 15))
  /\ (95 < cumulativePercentage ->
        classify contribution cumulativePercentage = (BAJA, contribution)).
Proof.
  unfold classify. repeat split.
  - intros H. apply Qle_bool_iff in H. now rewrite H.
  - intros H1 H2. apply Qle_bool_gt in H1. apply Qle_bool_iff in H2.
    now rewrite H1, H2.
  - intros H.
    assert (H1 : Qle_bool cumulativePercentage 80 = false)
      by (apply Qle_bool_gt; lra).
    apply Qle_bool_gt in H. now rewrite H1, H.
Qed.

Lemma classify_cases (contribution cumulativePercentage : Q) :
  fst (classify contribution cumulativePercentage) = ALTA
  \/ fst (classify contribution cumulativePercentage) = MEDIA
  \/ fst (classify contribution cumulativePercentage) = BAJA.
Proof.
  unfold classify.
  destruct (Qle_bool cumulativePercentage 80); [now left|].
  destruct (Qle_bool cumulativePercentage 95); [right; now left | right; now right].
Qed.

Lemma report_row (rows : list JSObject) (r : RowAnalysis) :
  In r (rowAnalyses (performParetoAnalysis rows)) ->
  exists cv k row,
    nth_error rows k = Some row
    /\ r = snd (analyzeRow (sumTotalValue (rankedRows rows)) cv (valueRow row k)).
Proof.
  simpl. intros H.
  destruct (analyzeRows_In _ _ _ _ H) as (cv & v & Hv & ->).
  destruct (rankedRows_In _ _ Hv) as (k & row & Hk & ->).
  now exists cv, k, row.
Qed.

(** C1: in every report the class and the score of a row are the values of
    [classify] at the row's own contribution and cumulative percentage, with
    inclusive upper bounds: at most 80 is "Alta Prioridad" with bonus 30,
    above 80 and at most 95 is "Media Prioridad" with bonus 15, above 95 is
    "Baja Prioridad" with no bonus; a row at exactly 80 or exactly 95 is not
    "Baja Prioridad". *)
Theorem C1_tier_and_score (rows : list JSObject) (r : RowAnalysis) :
  In r (rowAnalyses (performParetoAnalysis rows)) ->
  let cum := cumulativePercentage (metrics r) in
  let share := contribution (metrics r) in
  (classification r, paretoScore r) = classify share cum
  /\ (cum <= 80 ->
        classification r = "Alta Prioridad" /\ paretoScore r == share + 30)
  /\ (80 < cum -> cum <= 95 ->
        classification r = "Media Prioridad" /\ paretoScore r == share + 15)
  /\ (95 < cum ->
        classification r = "Baja Prioridad" /\ paretoScore r == share + 0)
  /\ (cum == 80 \/ cum == 95 -> classification r <> "Baja Prioridad").
Proof.
  intros H cum share.
  destruct (report_row _ _ H) as (cv & k & row & _ & ->).
  destruct (analyzeRow_spec (sumTotalValue (rankedRows rows)) cv (valueRow row k))
    as (_ & _ & _ & _ & _ & _ & E & _).
  fold cum share in E.
  destruct (classify_spec share cum) as (Hh & Hm & Hl).
  split; [exact E|].
  assert (Ec : classification (snd (analyzeRow (sumTotalValue (rankedRows rows))
                 cv (valueRow row k))) = fst (classify share cum))
    by now rewrite <- E.
  assert (Ep : paretoScore (snd (analyzeRow (sumTotalValue (rankedRows rows))
                 cv (valueRow row k))) = snd (classify share cum))
    by now rewrite <- E.
  rewrite Ec, Ep. clear E Ec Ep.
  split; [|split; [|split]].
  - intros H0. rewrite (Hh H0). split; reflexivity.
  - intros H0 H1. rewrite (Hm H0 H1). split; reflexivity.
  - intros H0. rewrite (Hl H0). split; [reflexivity | simpl; ring].
  - intros [H0|H0].
    + rewrite Hh by lra. discriminate.
    + rewrite Hm by lra. discriminate.
Qed.

Lemma C1_tier_and_score_witness :
  let r := nth 0 (rowAnalyses (performParetoAnalysis (parseCSV scenarioA))) noRow in
  classification r = "Media Prioridad"
  /\ paretoScore r == contribution (metrics r) + 15.
Proof.
  intros r.
  assert (Hin : In r (rowAnalyses (performParetoAnalysis (parseCSV scenarioA))))
    by (vm_compute; left; reflexivity).
  destruct (C1_tier_and_score _ r Hin) as (_ & _ & Hm & _).
  apply Hm; vm_compute; [reflexivity | discriminate].
Defined.

(** C2: on [name,val / A,10 / B,90] the parser gives the two records A and B,
    B weighs 90 and A weighs 10, the ranked order is B (row 2) then A (row 1),
    the contributions are 90 and 10, the cumulative percentages 90 and 100, B
    is "Media Prioridad" and A is "Baja Prioridad". *)
Theorem C2_scenario_A :
  parseCSV scenarioA
    = [[("name", "A"); ("val", "10")]; [("name", "B"); ("val", "90")]]
  /\ map (fun r => (data r, rowNumber r,
                    Qred (totalValue (metrics r)),
                    Qred (contribution (metrics r)),
                    Qred (cumulativePercentage (metrics r)),
                    classification r))
       (rowAnalyses (performParetoAnalysis (parseCSV scenarioA)))
     = [([("name", "B"); ("val", "90")], 2%nat, 90, 90, 90, "Media Prioridad");
        ([("name", "A"); ("val", "10")], 1%nat, 10, 10, 100, "Baja Prioridad")].
Proof. split; vm_compute; reflexivity. Qed.

(** ** The counts *)

Lemma countClass_partition (l : list RowAnalysis) :
  Forall (fun r => classification r = ALTA \/ classification r = MEDIA
                   \/ classification r = BAJA) l ->
  (countClass ALTA l + countClass MEDIA l + countClass BAJA l = length l)%nat.
Proof.
  unfold countClass.
  induction 1 as [|r l Hr _ IH]; [reflexivity|]. simpl.
  destruct Hr as [-> | [-> | ->]]; simpl; lia.
Qed.

Lemma report_classes (rows : list JSObject) :
  Forall (fun r => classification r = ALTA \/ classification r = MEDIA
                   \/ classification r = BAJA)
    (rowAnalyses (performParetoAnalysis rows)).
Proof.
  rewrite Forall_forall. intros r H.
  destruct (report_row _ _ H) as (cv & k & row & _ & ->).
  destruct (analyzeRow_spec (sumTotalValue (rankedRows rows)) cv (valueRow row k))
    as (_ & _ & _ & _ & _ & _ & E & _).
  set (r := snd _) in *.
  replace (classification r)
    with (fst (classify (contribution (metrics r))
                 (cumulativePercentage (metrics r)))) by now rewrite <- E.
  apply classify_cases.
Qed.

(** C10: the three counts of the summary add up to [totalRows], and
    [totalRows] is the number of parsed records. *)
Theorem C10_counts_partition (rows : list JSObject) :
  let s := summary (performParetoAnalysis rows) in
  (highPriority s + mediumPriority s + lowPriority s = totalRows s)%nat
  /\ totalRows s = length rows
  /\ length (rowAnalyses (performParetoAnalysis rows)) = length rows.
Proof.
  pose proof (countClass_partition _ (report_classes rows)) as H.
  simpl in *. rewrite analyzeRows_length, rankedRows_length in *.
  repeat split; assumption.
Qed.

(** ** The parser and the empty sheet *)

Lemma parseCSV_length (csvText : string) :
  length (parseCSV csvText) = (length (nonBlankLines csvText) - 1)%nat.
Proof.
  unfold parseCSV. fold (nonBlankLines csvText).
  destruct (nonBlankLines csvText) as [|first rest]; simpl.
  - reflexivity.
  - rewrite length_map. lia.
Qed.

(** C5: the core fails with the empty-sheet error exactly when the parser
    yields no record, which is exactly when the text has at most one
    non-blank line (a header alone, or nothing); otherwise it returns the
    report of [performParetoAnalysis], whatever the cells contain. *)
Theorem C5_empty_input (csvText : string) :
  (analyzeText csvText = inl EMPTY_SHEET <-> parseCSV csvText = [])
  /\ (parseCSV csvText = [] <-> (length (nonBlankLines csvText) <= 1)%nat)
  /\ (parseCSV csvText <> [] ->
      analyzeText csvText = inr (performParetoAnalysis (parseCSV csvText)))
  /\ ((exists e, analyzeText csvText = inl e) <-> parseCSV csvText = []).
Proof.
  pose proof (parseCSV_length csvText) as L.
  unfold analyzeText.
  destruct (parseCSV csvText) as [|row rows] eqn:E; simpl in *.
  - repeat split; try reflexivity; try lia; try congruence.
    now exists EMPTY_SHEET.
  - repeat split; try discriminate; try lia; try congruence.
    intros [e He]. discriminate.
Qed.

Lemma C5_empty_input_witness :
  analyzeText "name,val" = inl EMPTY_SHEET
  /\ analyzeText scenarioC = inr (performParetoAnalysis (parseCSV scenarioC)).
Proof.
  split.
  - apply (proj1 (C5_empty_input "name,val")). reflexivity.
  - apply (proj1 (proj2 (proj2 (C5_empty_input scenarioC)))). discriminate.
Defined.

(** ** The weight of a row *)





(** ** Shares *)

Lemma sumTotalValue_from (l : list ValuedRow) : forall a,
  fold_left (fun sum row => sum + vr_totalValue row) l a
    == a + Qsum (map vr_totalValue l).
Proof.
  induction l as [|v l IH]; intros a; simpl; [ring|]. rewrite IH. ring.
Qed.

Lemma sumTotalValue_Qsum (l : list ValuedRow) :
  sumTotalValue l == Qsum (map vr_totalValue l).
Proof. unfold sumTotalValue. rewrite sumTotalValue_from. ring. Qed.

Lemma Qsum_nonneg (l : list Q) : Forall (fun x => 0 <= x) l -> 0 <= Qsum l.
Proof.
  induction 1 as [|x l Hx _ IH]; simpl; [apply Qle_refl | lra].
Qed.

Lemma shareOf_mono (grandTotal x y : Q) :
  x <= y -> shareOf grandTotal x <= shareOf grandTotal y.
Proof.
  intros H. unfold shareOf. destruct (Qltb 0 grandTotal) eqn:E.
  - apply Qltb_lt in E.
    apply Qmult_le_compat_r; [|lra].
    unfold Qdiv. apply Qmult_le_compat_r; [assumption|].
    apply Qlt_le_weak, Qinv_lt_0_compat, E.
  - apply Qle_refl.
Qed.

Lemma shareOf_total (grandTotal x : Q) :
  x == grandTotal -> 0 < grandTotal -> shareOf grandTotal x == 100.
Proof.
  intros Hx H. unfold shareOf.
  rewrite (proj2 (Qltb_lt 0 grandTotal) H), Hx. field. lra.
Qed.

Lemma shareOf_zero (grandTotal x : Q) :
  grandTotal <= 0 -> shareOf grandTotal x = 0.
Proof.
  intros H. unfold shareOf. now rewrite (proj2 (Qltb_ge 0 grandTotal) H).
Qed.

Lemma cumulative_lower (grandTotal : Q) (l : list ValuedRow) :
  Forall (fun v => 0 <= vr_totalValue v) l -> forall cv,
  Forall (fun r => shareOf grandTotal cv <= cumulativeOf r)
    (analyzeRows grandTotal cv l).
Proof.
  induction 1 as [|v l Hv _ IH]; intros cv; [constructor|].
  rewrite analyzeRows_cons. constructor.
  - unfold cumulativeOf.
    destruct (analyzeRow_spec grandTotal cv v) as (_ & _ & _ & _ & _ & -> & _).
    apply shareOf_mono. lra.
  - eapply Forall_impl; [|apply IH]. simpl. intros r Hr.
    eapply Qle_trans; [|exact Hr]. apply shareOf_mono. lra.
Qed.

Lemma cumulative_sorted (grandTotal : Q) (l : list ValuedRow) :
  Forall (fun v => 0 <= vr_totalValue v) l -> forall cv,
  StronglySorted (fun a b => cumulativeOf a <= cumulativeOf b)
    (analyzeRows grandTotal cv l).
Proof.
  induction 1 as [|v l Hv Hl IH]; intros cv; [constructor|].
  rewrite analyzeRows_cons. constructor; [apply IH|].
  unfold cumulativeOf at 1.
  destruct (analyzeRow_spec grandTotal cv v) as (_ & _ & _ & _ & _ & -> & _).
  now apply cumulative_lower.
Qed.

Lemma shareOf_compat (grandTotal x y : Q) :
  x == y -> shareOf grandTotal x == shareOf grandTotal y.
Proof.
  intros H. unfold shareOf. destruct (Qltb 0 grandTotal); [|reflexivity].
  now rewrite H.
Qed.

Lemma cumulative_last (grandTotal : Q) (l : list ValuedRow) :
  forall cv init r, analyzeRows grandTotal cv l = (init ++ [r])%list ->
  cumulativeOf r == shareOf grandTotal (cv + Qsum (map vr_totalValue l)).
Proof.
  induction l as [|v l IH]; intros cv init r H.
  - now destruct init.
  - rewrite analyzeRows_cons in H. destruct init as [|r0 init]; simpl in H.
    + injection H as <- H.
      assert (l = []) as ->.
      { apply length_zero_iff_nil.
        rewrite <- (analyzeRows_length grandTotal l (cv + vr_totalValue v)).
        now rewrite H. }
      unfold cumulativeOf.
      destruct (analyzeRow_spec grandTotal cv v) as (_ & _ & _ & _ & _ & -> & _).
      apply shareOf_compat. simpl. ring.
    + injection H as _ H. rewrite (IH _ _ _ H).
      apply shareOf_compat. simpl. ring.
Qed.

(** ** Powers of two and binary exponents *)

Lemma pow2_pos (z : Z) : 0 < pow2 z.
Proof. apply Qpower_0_lt. reflexivity. Qed.

Lemma pow2_plus (a b : Z) : pow2 (a + b) == pow2 a * pow2 b.
Proof. apply Qpower_plus. discriminate. Qed.

Lemma pow2_le (a b : Z) : (a <= b)%Z -> pow2 a <= pow2 b.
Proof. intros H. apply Qpower_le_compat_l; [assumption | discriminate]. Qed.

Lemma pow2_lt (a b : Z) : (a < b)%Z -> pow2 a < pow2 b.
Proof. intros H. apply Qpower_lt_compat_l; [assumption | reflexivity]. Qed.

Lemma pow2_lt_inv (a b : Z) : pow2 a < pow2 b -> (a < b)%Z.
Proof.
  intros H. destruct (Z_lt_le_dec a b) as [L|L]; [assumption|].
  apply pow2_le in L. lra.
Qed.

Lemma pow2_S (a : Z) : pow2 (a + 1) == 2 * pow2 a.
Proof. rewrite pow2_plus. unfold pow2 at 2. simpl. ring. Qed.

Lemma pow2_inject (k : Z) : (0 <= k)%Z -> inject_Z (2 ^ k) == pow2 k.
Proof. intros H. unfold pow2. now rewrite Zpower_Qpower. Qed.

Lemma ilog2_spec (q : Q) :
  0 < q -> pow2 (ilog2 q) <= q /\ q < pow2 (ilog2 q + 1).
Proof.
  intros Hq. destruct q as [n d]. unfold ilog2. cbn [Qnum Qden].
  assert (Hn : (0 < n)%Z) by (unfold Qlt in Hq; simpl in Hq; lia).
  pose proof (Z.log2_spec n Hn) as [N1 N2].
  pose proof (Z.log2_spec (Zpos d) (Pos2Z.is_pos d)) as [D1 D2].
  pose proof (Z.log2_nonneg n) as Ln. pose proof (Z.log2_nonneg (Zpos d)) as Ld.
  set (ln := Z.log2 n) in *. set (ld := Z.log2 (Zpos d)) in *.
  assert (Eq : n # d == inject_Z n / inject_Z (Zpos d)) by apply Qmake_Qdiv.
  assert (Dpos : 0 < inject_Z (Zpos d)) by (unfold Qlt; simpl; lia).
  assert (Q1 : pow2 ln <= inject_Z n)
    by (rewrite <- pow2_inject by assumption; now rewrite <- Zle_Qle).
  assert (Q2 : inject_Z n < pow2 (ln + 1))
    by (rewrite <- pow2_inject by lia; rewrite <- Zlt_Qlt; lia).
  assert (Q3 : pow2 ld <= inject_Z (Zpos d))
    by (rewrite <- pow2_inject by assumption; now rewrite <- Zle_Qle).
  assert (Q4 : inject_Z (Zpos d) < pow2 (ld + 1))
    by (rewrite <- pow2_inject by lia; rewrite <- Zlt_Qlt; lia).
  assert (Hmul : forall e, pow2 e * pow2 ld == pow2 (e + ld))
    by (intros e; now rewrite pow2_plus).
  (* n/d * d = n *)
  assert (Hnd : (n # d) * inject_Z (Zpos d) == inject_Z n)
    by (rewrite Eq; field; lra).
  pose proof (pow2_pos ld) as Pld. pose proof (pow2_pos (ln - ld)) as Pe.
  destruct (Qle_bool (pow2 (ln - ld)) (n # d)) eqn:E.
  - apply Qle_bool_iff in E. split; [assumption|].
    (* n/d < 2^(ln-ld+1) : n < 2^(ln+1) = 2^(ln-ld+1) * 2^ld <= 2^(ln-ld+1) * d *)
    assert (H1 : pow2 (ln - ld + 1) * pow2 ld == pow2 (ln + 1))
      by (rewrite Hmul; now replace (ln - ld + 1 + ld)%Z with (ln + 1)%Z by lia).
    pose proof (pow2_pos (ln - ld + 1)) as P1.
    apply Qnot_le_lt. intros C.
    assert (pow2 (ln - ld + 1) * inject_Z (Zpos d) <= (n # d) * inject_Z (Zpos d))
      by (apply Qmult_le_compat_r; lra).
    assert (pow2 (ln - ld + 1) * pow2 ld <= pow2 (ln - ld + 1) * inject_Z (Zpos d))
      by (rewrite !(Qmult_comm (pow2 (ln - ld + 1))); apply Qmult_le_compat_r; lra).
    lra.
  - rewrite <- not_true_iff_false, Qle_bool_iff in E. apply Qnot_le_lt in E.
    replace (ln - ld - 1 + 1)%Z with (ln - ld)%Z by lia. split; [|assumption].
    (* 2^(ln-ld-1) <= n/d : 2^(ln-ld-1) * d < 2^(ln-ld-1) * 2^(ld+1) = 2^ln <= n *)
    assert (H1 : pow2 (ln - ld - 1) * pow2 (ld + 1) == pow2 ln)
      by (rewrite <- pow2_plus; now replace (ln - ld - 1 + (ld + 1))%Z with ln by lia).
    pose proof (pow2_pos (ln - ld - 1)) as P1.
    apply Qnot_lt_le. intros C.
    assert ((n # d) * inject_Z (Zpos d) < pow2 (ln - ld - 1) * inject_Z (Zpos d))
      by (apply Qmult_lt_compat_r; lra).
    assert (pow2 (ln - ld - 1) * inject_Z (Zpos d) <= pow2 (ln - ld - 1) * pow2 (ld + 1))
      by (rewrite !(Qmult_comm (pow2 (ln - ld - 1))); apply Qmult_le_compat_r; lra).
    lra.
Qed.

Lemma ilog2_unique (q : Q) (e : Z) :
  pow2 e <= q -> q < pow2 (e + 1) -> ilog2 q = e.
Proof.
  intros H1 H2. pose proof (pow2_pos e) as P.
  destruct (ilog2_spec q) as [S1 S2]; [lra|].
  assert (A : (ilog2 q < e + 1)%Z) by (apply pow2_lt_inv; lra).
  assert (B : (e < ilog2 q + 1)%Z) by (apply pow2_lt_inv; lra).
  lia.
Qed.

Lemma ilog2_comp (q q' : Q) : 0 < q -> q == q' -> ilog2 q = ilog2 q'.
Proof.
  intros H E. destruct (ilog2_spec q' ) as [S1 S2]; [lra|].
  apply ilog2_unique; lra.
Qed.

(** ** Rounding to an integer *)

(** [lra] after hiding the integers injected into [Q]. *)
Ltac qlra := rewrite ?inject_Z_plus in *; change (inject_Z 1) with 1 in *; lra.

Lemma floor_bounds (x : Q) : inject_Z (Qfloor x) <= x /\ x < inject_Z (Qfloor x) + 1.
Proof.
  split; [apply Qfloor_le|]. pose proof (Qlt_floor x) as H.
  rewrite inject_Z_plus in H. exact H.
Qed.

Lemma rne_cases (x : Q) :
  (rne x = Qfloor x /\ x - inject_Z (Qfloor x) <= 1 # 2)
  \/ (rne x = (Qfloor x + 1)%Z /\ 1 # 2 <= x - inject_Z (Qfloor x)).
Proof.
  unfold rne. destruct (Qcompare_spec (x - inject_Z (Qfloor x)) (1 # 2)) as [E|E|E].
  - destruct (Z.even (Qfloor x)); [left | right]; split; try reflexivity; qlra.
  - left. split; [reflexivity | qlra].
  - right. split; [reflexivity | qlra].
Qed.

Lemma rne_err (x : Q) :
  x - (1 # 2) <= inject_Z (rne x) /\ inject_Z (rne x) <= x + (1 # 2).
Proof.
  destruct (floor_bounds x) as [F1 F2].
  destruct (rne_cases x) as [[-> H]|[-> H]]; split; qlra.
Qed.

Lemma rne_comp (x y : Q) : x == y -> rne x = rne y.
Proof.
  intros E. unfold rne. rewrite (Qfloor_comp _ _ E).
  assert (E' : x - inject_Z (Qfloor y) == y - inject_Z (Qfloor y)) by (rewrite E; reflexivity).
  now rewrite (Qcompare_comp _ _ E' (1 # 2) (1 # 2) (Qeq_refl _)).
Qed.

Lemma rne_Z (z : Z) : rne (inject_Z z) = z.
Proof.
  unfold rne. rewrite Qfloor_Z.
  assert (E : inject_Z z - inject_Z z == 0) by ring.
  now rewrite (Qcompare_comp _ _ E (1 # 2) (1 # 2) (Qeq_refl _)).
Qed.

Lemma rne_mono (x y : Q) : x <= y -> (rne x <= rne y)%Z.
Proof.
  intros H. pose proof (Qfloor_resp_le _ _ H) as F.
  destruct (floor_bounds x) as [X1 X2]. destruct (floor_bounds y) as [Y1 Y2].
  destruct (Z.eq_dec (Qfloor x) (Qfloor y)) as [E|E].
  - unfold rne. rewrite <- E.
    destruct (Qcompare_spec (x - inject_Z (Qfloor x)) (1 # 2)) as [A|A|A];
      destruct (Qcompare_spec (y - inject_Z (Qfloor x)) (1 # 2)) as [B|B|B];
      try destruct (Z.even (Qfloor x)); try lia; exfalso; qlra.
  - assert (L : (Qfloor x + 1 <= Qfloor y)%Z) by lia.
    destruct (rne_cases x) as [[-> _]|[-> _]];
      destruct (rne_cases y) as [[-> _]|[-> _]]; lia.
Qed.

Lemma rne_le_Z (x : Q) (z : Z) : x <= inject_Z z -> (rne x <= z)%Z.
Proof. intros H. rewrite <- (rne_Z z). now apply rne_mono. Qed.

Lemma rne_ge_Z (x : Q) (z : Z) : inject_Z z <= x -> (z <= rne x)%Z.
Proof. intros H. rewrite <- (rne_Z z). now apply rne_mono. Qed.

Lemma roundPos_cases (a : Q) :
  (pow2 1024 <= roundedValue a /\ roundPos a = Inf false)
  \/ (roundedValue a < pow2 1024 /\ roundPos a = Fin (roundedValue a)).
Proof.
  unfold roundPos. fold (roundedValue a).
  destruct (Qle_bool (pow2 1024) (roundedValue a)) eqn:E.
  - left. split; [now apply Qle_bool_iff | reflexivity].
  - right. split; [|reflexivity].
    apply Qnot_le_lt. intros H. apply Qle_bool_iff in H. congruence.
Qed.

Lemma ilog2_mono (a b : Q) : 0 < a -> a <= b -> (ilog2 a <= ilog2 b)%Z.
Proof.
  intros Ha Hab. destruct (ilog2_spec a Ha) as [A1 A2].
  destruct (ilog2_spec b) as [B1 B2]; [lra|].
  assert (H : (ilog2 a < ilog2 b + 1)%Z) by (apply pow2_lt_inv; lra). lia.
Qed.

Lemma quantumExp_mono (a b : Q) : 0 < a -> a <= b -> (quantumExp a <= quantumExp b)%Z.
Proof. intros Ha Hab. pose proof (ilog2_mono a b Ha Hab). unfold quantumExp. lia. Qed.

Lemma quantumExp_comp (a b : Q) : 0 < a -> a == b -> quantumExp a = quantumExp b.
Proof. intros Ha E. unfold quantumExp. now rewrite (ilog2_comp a b Ha E). Qed.

Lemma scaled (a : Q) (k : Z) : a == (a / pow2 k) * pow2 k.
Proof. pose proof (pow2_pos k). field. lra. Qed.

Lemma scaled_lt (a : Q) :
  0 < a -> a / pow2 (quantumExp a) < pow2 53.
Proof.
  intros Ha. destruct (ilog2_spec a Ha) as [_ S2].
  apply Qlt_shift_div_r; [apply pow2_pos|]. rewrite <- pow2_plus.
  eapply Qlt_le_trans; [exact S2|]. apply pow2_le. unfold quantumExp. lia.
Qed.

Lemma scaled_ge (a : Q) :
  0 < a -> (-1022 <= ilog2 a)%Z -> pow2 52 <= a / pow2 (quantumExp a).
Proof.
  intros Ha He. destruct (ilog2_spec a Ha) as [S1 _].
  apply Qle_shift_div_l; [apply pow2_pos|]. rewrite <- pow2_plus.
  eapply Qle_trans; [|exact S1]. apply pow2_le. unfold quantumExp. lia.
Qed.

Lemma scaled_lt_sub (a : Q) :
  0 < a -> (ilog2 a < -1022)%Z -> a / pow2 (quantumExp a) < pow2 52.
Proof.
  intros Ha He. destruct (ilog2_spec a Ha) as [_ S2].
  apply Qlt_shift_div_r; [apply pow2_pos|]. rewrite <- pow2_plus.
  eapply Qlt_le_trans; [exact S2|]. apply pow2_le. unfold quantumExp. lia.
Qed.

Lemma pow2_Z (k : Z) : (0 <= k)%Z -> pow2 k == inject_Z (2 ^ k).
Proof. intros H. now rewrite pow2_inject. Qed.

Lemma mantissa_le (a : Q) : 0 < a -> (rne (a / pow2 (quantumExp a)) <= 2 ^ 53)%Z.
Proof.
  intros Ha. apply rne_le_Z. rewrite <- pow2_Z by lia.
  apply Qlt_le_weak, scaled_lt, Ha.
Qed.

Lemma mantissa_ge (a : Q) :
  0 < a -> (-1022 <= ilog2 a)%Z -> (2 ^ 52 <= rne (a / pow2 (quantumExp a)))%Z.
Proof.
  intros Ha He. apply rne_ge_Z. rewrite <- pow2_Z by lia. now apply scaled_ge.
Qed.

Lemma mantissa_nonneg (a : Q) : 0 < a -> (0 <= rne (a / pow2 (quantumExp a)))%Z.
Proof.
  intros Ha. apply rne_ge_Z. apply Qle_shift_div_l; [apply pow2_pos|].
  change (inject_Z 0) with 0. lra.
Qed.

Lemma roundedValue_nonneg (a : Q) : 0 < a -> 0 <= roundedValue a.
Proof.
  intros Ha. unfold roundedValue. apply Qmult_le_0_compat.
  - change 0 with (inject_Z 0). rewrite <- Zle_Qle. now apply mantissa_nonneg.
  - apply Qlt_le_weak, pow2_pos.
Qed.

(** Half a quantum bounds the rounding error. *)
Lemma roundedValue_err (a : Q) :
  a - pow2 (quantumExp a - 1) <= roundedValue a
  /\ roundedValue a <= a + pow2 (quantumExp a - 1).
Proof.
  unfold roundedValue. set (k := quantumExp a).
  pose proof (pow2_pos k) as P. pose proof (rne_err (a / pow2 k)) as [E1 E2].
  assert (H2 : pow2 k == 2 * pow2 (k - 1))
    by (rewrite <- pow2_S; now replace (k - 1 + 1)%Z with k by lia).
  assert (Ha : a == (a / pow2 k) * pow2 k) by apply scaled.
  set (x := a / pow2 k) in *. set (n := inject_Z (rne x)) in *.
  split; rewrite Ha at 1; nra.
Qed.

Lemma roundedValue_mono (a b : Q) :
  0 < a -> a <= b -> roundedValue a <= roundedValue b.
Proof.
  intros Ha Hab. assert (Hb : 0 < b) by lra.
  pose proof (quantumExp_mono a b Ha Hab) as K.
  unfold roundedValue. set (ka := quantumExp a) in *. set (kb := quantumExp b) in *.
  destruct (Z.eq_dec ka kb) as [E|E].
  - rewrite <- E. apply Qmult_le_compat_r; [|apply Qlt_le_weak, pow2_pos].
    rewrite <- Zle_Qle. apply rne_mono.
    apply Qmult_le_compat_r; [assumption|].
    apply Qlt_le_weak, Qinv_lt_0_compat, pow2_pos.
  - assert (L : (ka < kb)%Z) by lia.
    assert (Nb : (-1022 <= ilog2 b)%Z) by (unfold kb, ka, quantumExp in *; lia).
    pose proof (mantissa_le a Ha) as Ma. fold ka in Ma.
    pose proof (mantissa_ge b Hb Nb) as Mb. fold kb in Mb.
    rewrite Zle_Qle in Ma, Mb. rewrite <- !pow2_Z in Ma, Mb by lia.
    pose proof (pow2_pos ka) as Pa. pose proof (pow2_pos kb) as Pb.
    assert (T1 : inject_Z (rne (a / pow2 ka)) * pow2 ka <= pow2 53 * pow2 ka)
      by (apply Qmult_le_compat_r; lra).
    assert (T2 : pow2 52 * pow2 kb <= inject_Z (rne (b / pow2 kb)) * pow2 kb)
      by (apply Qmult_le_compat_r; lra).
    assert (T3 : pow2 53 * pow2 ka <= pow2 52 * pow2 kb)
      by (rewrite <- !pow2_plus; apply pow2_le; lia).
    lra.
Qed.

Lemma roundedValue_comp (a b : Q) : 0 < a -> a == b -> roundedValue a == roundedValue b.
Proof.
  intros Ha E. unfold roundedValue. rewrite <- (quantumExp_comp a b Ha E).
  assert (E' : a / pow2 (quantumExp a) == b / pow2 (quantumExp a))
    by (unfold Qdiv; apply Qmult_comp; [exact E | reflexivity]).
  now rewrite (rne_comp _ _ E').
Qed.

(** A value that is a whole number of its own quanta is left alone. *)
Lemma roundedValue_exact (a : Q) (m : Z) :
  0 < a -> a == inject_Z m * pow2 (quantumExp a) -> roundedValue a == a.
Proof.
  intros Ha E. unfold roundedValue. pose proof (pow2_pos (quantumExp a)) as P.
  assert (E' : a / pow2 (quantumExp a) == inject_Z m)
    by (rewrite E at 1; field; lra).
  rewrite (rne_comp _ _ E'), rne_Z. now rewrite <- E.
Qed.

(** ** Representable values *)

Lemma quantumExp_ge (a : Q) : (-1074 <= quantumExp a)%Z.
Proof. unfold quantumExp. lia. Qed.

Lemma grid_of_quantum (q : Q) (m k : Z) :
  (-1074 <= k)%Z -> q == inject_Z m * pow2 k -> grid q.
Proof.
  intros Hk E. exists (m * 2 ^ (k + 1074))%Z.
  rewrite inject_Z_mult, <- pow2_Z by lia. rewrite E.
  rewrite <- Qmult_assoc, <- pow2_plus. now replace (k + 1074 + -1074)%Z with k by lia.
Qed.

Lemma representable_grid (q : Q) : representable q -> grid q.
Proof.
  intros [E|(_ & _ & m & E)].
  - exists 0%Z. rewrite E. ring.
  - apply (grid_of_quantum q m _ (quantumExp_ge q) E).
Qed.

Lemma grid_plus (a b : Q) : grid a -> grid b -> grid (a + b).
Proof.
  intros [m Ea] [n Eb]. exists (m + n)%Z. rewrite inject_Z_plus, Ea, Eb. ring.
Qed.

Lemma grid_mult_Z (a : Q) (z : Z) : grid a -> grid (a * inject_Z z).
Proof.
  intros [m Ea]. exists (m * z)%Z. rewrite inject_Z_mult, Ea. ring.
Qed.

Lemma roundedValue_representable (a : Q) :
  0 < a -> roundedValue a < pow2 1024 -> representable (roundedValue a).
Proof.
  intros Ha Hfin. pose proof (mantissa_nonneg a Ha) as N0.
  set (k := quantumExp a) in *. set (n := rne (a / pow2 k)) in *.
  assert (Ev : roundedValue a = inject_Z n * pow2 k) by reflexivity.
  pose proof (pow2_pos k) as Pk.
  destruct (Z.eq_dec n 0) as [Z0|NZ].
  - left. rewrite Ev, Z0. ring.
  - right. assert (N1 : (1 <= n)%Z) by lia.
    assert (Q1 : 1 <= inject_Z n) by (change 1 with (inject_Z 1); now rewrite <- Zle_Qle).
    assert (Vpos : 0 < roundedValue a) by (rewrite Ev; nra).
    split; [exact Vpos|]. split; [exact Hfin|].
    destruct (Z_le_gt_dec (-1022) (ilog2 a)) as [Norm|Sub].
    + assert (Ek : k = (ilog2 a - 52)%Z) by (unfold k, quantumExp; lia).
      pose proof (mantissa_le a Ha) as M1. pose proof (mantissa_ge a Ha Norm) as M2.
      fold k in M1, M2. fold n in M1, M2.
      destruct (Z.eq_dec n (2 ^ 53)) as [Top|NTop].
      * assert (Ev' : roundedValue a == pow2 (k + 53)).
        { rewrite Ev, Top, <- pow2_Z by lia. rewrite <- pow2_plus.
          now replace (53 + k)%Z with (k + 53)%Z by lia. }
        assert (El : ilog2 (roundedValue a) = (k + 53)%Z).
        { apply ilog2_unique; rewrite Ev'; [apply Qle_refl|].
          apply pow2_lt. lia. }
        exists (2 ^ 52)%Z. unfold quantumExp. rewrite El.
        replace (Z.max (k + 53) (-1022) - 52)%Z with (k + 1)%Z by lia.
        rewrite Ev', <- pow2_Z by lia. rewrite <- pow2_plus.
        now replace (52 + (k + 1))%Z with (k + 53)%Z by lia.
      * assert (M1' : (n < 2 ^ 53)%Z) by lia.
        rewrite Zlt_Qlt in M1'. rewrite Zle_Qle in M2.
        rewrite <- !pow2_Z in M1', M2 by lia.
        assert (El : ilog2 (roundedValue a) = (k + 52)%Z).
        { apply ilog2_unique; rewrite Ev.
          - rewrite (Qmult_comm _ (pow2 k)). rewrite pow2_plus.
            apply Qmult_le_l; assumption.
          - replace (k + 52 + 1)%Z with (53 + k)%Z by lia. rewrite pow2_plus.
            apply Qmult_lt_compat_r; assumption. }
        exists n. unfold quantumExp. rewrite El.
        replace (Z.max (k + 52) (-1022) - 52)%Z with k by lia. now rewrite Ev.
    + assert (Ek : k = (-1074)%Z) by (unfold k, quantumExp; lia).
      assert (M1 : (n <= 2 ^ 52)%Z).
      { apply rne_le_Z. rewrite <- pow2_Z by lia.
        apply Qlt_le_weak. apply scaled_lt_sub; [assumption | lia]. }
      rewrite Zle_Qle in M1. rewrite <- pow2_Z in M1 by lia.
      assert (Hv : roundedValue a < pow2 (-1021)).
      { rewrite Ev, Ek. apply Qle_lt_trans with (pow2 52 * pow2 (-1074)).
        - apply Qmult_le_compat_r; [assumption | apply Qlt_le_weak, pow2_pos].
        - rewrite <- pow2_plus. apply pow2_lt. lia. }
      destruct (ilog2_spec _ Vpos) as [S1 _].
      assert (El : (ilog2 (roundedValue a) < -1021)%Z) by (apply pow2_lt_inv; lra).
      exists n. unfold quantumExp.
      replace (Z.max (ilog2 (roundedValue a)) (-1022) - 52)%Z with k by lia.
      now rewrite Ev.
Qed.

Lemma representable_exact (v : Q) :
  0 < v -> representable v -> roundedValue v == v /\ roundPos v = Fin (roundedValue v).
Proof.
  intros Hv [E|(_ & Hfin & m & E)]; [lra|].
  pose proof (roundedValue_exact v m Hv E) as X. split; [exact X|].
  destruct (roundPos_cases v) as [[H _]|[_ H]]; [lra | exact H].
Qed.

(** ** Rounding errors *)

Lemma roundedValue_err_normal (a : Q) :
  0 < a -> (-1022 <= ilog2 a)%Z ->
  a * (1 - u) <= roundedValue a /\ roundedValue a <= a * (1 + u).
Proof.
  intros Ha Hn. destruct (roundedValue_err a) as [E1 E2].
  destruct (ilog2_spec a Ha) as [S1 _].
  assert (K : (quantumExp a - 1 = ilog2 a + -53)%Z) by (unfold quantumExp; lia).
  rewrite K, pow2_plus in E1, E2. fold u in E1, E2.
  assert (U : 0 < u) by apply pow2_pos.
  assert (T : pow2 (ilog2 a) * u <= a * u) by (apply Qmult_le_compat_r; lra).
  split; lra.
Qed.

Lemma roundedValue_err_any (a : Q) :
  0 < a ->
  a * (1 - u) - eta <= roundedValue a /\ roundedValue a <= a * (1 + u) + eta.
Proof.
  intros Ha. assert (U : 0 < u) by apply pow2_pos.
  assert (H : 0 < eta) by apply pow2_pos.
  destruct (Z_le_gt_dec (-1022) (ilog2 a)) as [Norm|Sub].
  - destruct (roundedValue_err_normal a Ha Norm). split; lra.
  - destruct (roundedValue_err a) as [E1 E2].
    assert (K : (quantumExp a - 1 = -1075)%Z) by (unfold quantumExp; lia).
    rewrite K in E1, E2. fold eta in E1, E2.
    assert (0 <= a * u) by (apply Qmult_le_0_compat; lra).
    split; lra.
Qed.

Lemma roundedValue_err_grid (a : Q) :
  0 < a -> grid a ->
  a * (1 - u) <= roundedValue a /\ roundedValue a <= a * (1 + u).
Proof.
  intros Ha [m E]. assert (U : 0 < u) by apply pow2_pos.
  destruct (Z_le_gt_dec (-1022) (ilog2 a)) as [Norm|Sub].
  - now apply roundedValue_err_normal.
  - assert (K : quantumExp a = (-1074)%Z) by (unfold quantumExp; lia).
    assert (X : roundedValue a == a) by (apply (roundedValue_exact a m Ha); now rewrite K).
    assert (0 <= a * u) by (apply Qmult_le_0_compat; lra).
    rewrite X. split; lra.
Qed.

(** ** Rounding a non-negative rational *)

Lemma round64_zero (q : Q) : q == 0 -> round64 q = Fin 0.
Proof. intros E. unfold round64. apply Qeq_alt in E. now rewrite E. Qed.

Lemma round64_pos (q : Q) : 0 < q -> round64 q = roundPos q.
Proof. intros H. unfold round64. apply Qgt_alt in H. now rewrite H. Qed.

Lemma representable_nonneg (q : Q) : representable q -> 0 <= q.
Proof. intros [E|(H & _)]; lra. Qed.

Lemma representable_0 : representable 0.
Proof. left. reflexivity. Qed.

Lemma representable_comp (a b : Q) : a == b -> representable a -> representable b.
Proof.
  intros E [Z|(P & F & m & G)]; [left; lra|]. right.
  split; [lra|]. split; [lra|]. exists m.
  rewrite <- (quantumExp_comp a b P E). now rewrite <- E.
Qed.

Lemma round64_weight (q : Q) : 0 <= q -> weight (round64 q).
Proof.
  intros H. destruct (Qlt_le_dec 0 q) as [P|Z].
  - rewrite (round64_pos q P).
    destruct (roundPos_cases q) as [[_ ->]|[F ->]]; simpl; [reflexivity|].
    now apply roundedValue_representable.
  - rewrite round64_zero by lra. apply representable_0.
Qed.

Lemma round64_fin_pos (q v : Q) :
  0 < q -> round64 q = Fin v -> v = roundedValue q /\ roundedValue q < pow2 1024.
Proof.
  intros P E. rewrite (round64_pos q P) in E.
  destruct (roundPos_cases q) as [[_ H]|[F H]]; rewrite H in E;
    [discriminate|]. injection E as <-. now split.
Qed.

Lemma round64_mono (a b vb : Q) :
  0 <= a -> a <= b -> round64 b = Fin vb ->
  exists va, round64 a = Fin va /\ 0 <= va /\ va <= vb.
Proof.
  intros Ha Hab Eb. destruct (Qlt_le_dec 0 a) as [P|Z].
  - assert (Pb : 0 < b) by lra.
    destruct (round64_fin_pos b vb Pb Eb) as [-> Fb].
    pose proof (roundedValue_mono a b P Hab) as M.
    exists (roundedValue a). rewrite (round64_pos a P).
    destruct (roundPos_cases a) as [[O _]|[_ ->]]; [lra|].
    split; [reflexivity|]. split; [now apply roundedValue_nonneg | exact M].
  - exists 0. rewrite round64_zero by lra. split; [reflexivity|].
    split; [apply Qle_refl|].
    destruct (Qlt_le_dec 0 b) as [Pb|Zb].
    + destruct (round64_fin_pos b vb Pb Eb) as [-> _]. now apply roundedValue_nonneg.
    + rewrite round64_zero in Eb by lra. injection Eb as <-. apply Qle_refl.
Qed.

Lemma round64_exact (v : Q) :
  representable v -> exists v', round64 v = Fin v' /\ v' == v.
Proof.
  intros R. destruct (Qlt_le_dec 0 v) as [P|Z].
  - destruct (representable_exact v P R) as [X E].
    exists (roundedValue v). now rewrite (round64_pos v P).
  - pose proof (representable_nonneg v R). exists 0.
    rewrite round64_zero by lra. split; [reflexivity | lra].
Qed.

Lemma round64_comp (a b va : Q) :
  0 <= a -> a == b -> round64 a = Fin va ->
  exists vb, round64 b = Fin vb /\ va == vb.
Proof.
  intros Ha E Ea. destruct (Qlt_le_dec 0 a) as [P|Z].
  - assert (Pb : 0 < b) by lra.
    destruct (round64_fin_pos a va P Ea) as [-> F].
    pose proof (roundedValue_comp a b P E) as C.
    exists (roundedValue b). rewrite (round64_pos b Pb).
    destruct (roundPos_cases b) as [[O _]|[_ ->]]; [lra|]. now split.
  - rewrite round64_zero in Ea by lra. injection Ea as <-.
    exists 0. rewrite round64_zero by lra. now split.
Qed.

Lemma round64_err_grid (q v : Q) :
  0 <= q -> grid q -> round64 q = Fin v ->
  q * (1 - u) <= v /\ v <= q * (1 + u).
Proof.
  intros H G E. destruct (Qlt_le_dec 0 q) as [P|Z].
  - destruct (round64_fin_pos q v P E) as [-> _]. now apply roundedValue_err_grid.
  - rewrite round64_zero in E by lra. injection E as <-.
    assert (Q0 : q == 0) by lra. rewrite Q0. split; lra.
Qed.

Lemma round64_err_any (q v : Q) :
  0 <= q -> round64 q = Fin v ->
  q * (1 - u) - eta <= v /\ v <= q * (1 + u) + eta.
Proof.
  intros H E. assert (He : 0 < eta) by apply pow2_pos.
  destruct (Qlt_le_dec 0 q) as [P|Z].
  - destruct (round64_fin_pos q v P E) as [-> _]. now apply roundedValue_err_any.
  - rewrite round64_zero in E by lra. injection E as <-.
    assert (Q0 : q == 0) by lra. rewrite Q0. split; lra.
Qed.

Lemma round64_fin_weight (q v : Q) : 0 <= q -> round64 q = Fin v -> representable v.
Proof. intros H E. pose proof (round64_weight q H) as W. now rewrite E in W. Qed.

(** ** Sums of weights *)

Lemma add_weight (x y : number) : weight x -> weight y -> weight (add x y).
Proof.
  destruct x as [a|s|], y as [b|t|]; simpl; try contradiction; try tauto.
  - intros Ra Rb. apply round64_weight.
    pose proof (representable_nonneg a Ra). pose proof (representable_nonneg b Rb). lra.
  - intros -> ->. reflexivity.
Qed.

Lemma add_fin (x y : number) (s : Q) :
  weight x -> weight y -> add x y = Fin s ->
  exists a b, x = Fin a /\ y = Fin b
    /\ representable a /\ representable b /\ representable s
    /\ a <= s /\ b <= s
    /\ (a + b) * (1 - u) <= s /\ s <= (a + b) * (1 + u).
Proof.
  destruct x as [a|sa|], y as [b|sb|]; simpl; try contradiction;
    try discriminate.
  - intros Ra Rb E. exists a, b.
    pose proof (representable_nonneg a Ra) as Na.
    pose proof (representable_nonneg b Rb) as Nb.
    assert (Nab : 0 <= a + b) by lra.
    split; [reflexivity|]. split; [reflexivity|].
    split; [exact Ra|]. split; [exact Rb|].
    split; [apply (round64_fin_weight (a + b) s Nab E)|].
    destruct (round64_exact a Ra) as (a' & Ea & Ea').
    destruct (round64_exact b Rb) as (b' & Eb & Eb').
    destruct (round64_mono a (a + b) s Na ltac:(lra) E) as (a2 & Ea2 & _ & La).
    destruct (round64_mono b (a + b) s Nb ltac:(lra) E) as (b2 & Eb2 & _ & Lb).
    rewrite Ea in Ea2. injection Ea2 as <-. rewrite Eb in Eb2. injection Eb2 as <-.
    split; [lra|]. split; [lra|].
    apply round64_err_grid; [exact Nab | | exact E].
    apply grid_plus; now apply representable_grid.
  - intros _ Hs. destruct (Bool.eqb sa sb); discriminate.
Qed.

(** ** The weights of the rows *)

Lemma abs_round64_weight (mv : Q) : weight (abs (round64 mv)).
Proof.
  destruct (Qlt_le_dec mv 0) as [N|P].
  - assert (Pm : 0 < - mv) by lra.
    unfold round64. destruct (Qcompare_spec mv 0) as [C|C|C]; [lra | | lra].
    destruct (roundPos_cases (- mv)) as [[_ ->]|[F ->]];
      cbn [abs negate weight]; [reflexivity|].
    pose proof (roundedValue_representable (- mv) Pm F) as R.
    pose proof (representable_nonneg _ R) as Nn.
    apply (representable_comp (roundedValue (- mv))); [|exact R].
    rewrite Qabs_opp. symmetry. now apply Qabs_pos.
  - pose proof (round64_weight mv P) as W.
    destruct (round64 mv) as [v|s|]; cbn [abs weight] in *;
      [|reflexivity|contradiction].
    pose proof (representable_nonneg _ W) as Nn.
    apply (representable_comp v); [|exact W]. symmetry. now apply Qabs_pos.
Qed.

Lemma valueRow64_weight (row : JSObject) (index : nat) :
  weight (v64_totalValue (valueRow64 row index)).
Proof.
  unfold valueRow64. cbn [v64_totalValue].
  assert (H : forall st, weight (fst st) -> weight (fst (fold_left valueStep64 row st))).
  { induction row as [|e row IH]; intros st W; [exact W|]. simpl. apply IH.
    unfold valueStep64. destruct (parseFloat _); [|exact W].
    cbn [fst]. apply add_weight; [exact W | apply abs_round64_weight]. }
  apply H. apply representable_0.
Qed.

Lemma sortInsert64_Forall {A : Type} (cmp : A -> A -> number) (P : A -> Prop)
    (x : A) (l : list A) :
  P x -> Forall P l -> Forall P (sortInsert64 cmp x l).
Proof.
  intros Hx. induction 1 as [|y l Hy Hl IH]; simpl; [now constructor|].
  destruct (gtb (cmp x y) zero); repeat constructor; assumption.
Qed.

Lemma sort64_Forall {A : Type} (cmp : A -> A -> number) (P : A -> Prop) (l : list A) :
  Forall P l -> Forall P (sort64 cmp l).
Proof.
  induction 1 as [|x l Hx Hl IH]; simpl; [constructor|].
  now apply sortInsert64_Forall.
Qed.

Lemma sortInsert64_length {A : Type} (cmp : A -> A -> number) (x : A) (l : list A) :
  length (sortInsert64 cmp x l) = S (length l).
Proof.
  induction l as [|y l IH]; simpl; [reflexivity|].
  destruct (gtb (cmp x y) zero); simpl; [now rewrite IH | reflexivity].
Qed.

Lemma sort64_length {A : Type} (cmp : A -> A -> number) (l : list A) :
  length (sort64 cmp l) = length l.
Proof.
  induction l as [|x l IH]; simpl; [reflexivity|].
  now rewrite sortInsert64_length, IH.
Qed.

Lemma mapIndexed_Forall {A B : Type} (f : A -> nat -> B) (P : B -> Prop) (l : list A) :
  (forall x i, P (f x i)) -> forall i, Forall P (mapIndexed f i l).
Proof.
  intros H. induction l as [|x l IH]; intros i; simpl; constructor; auto.
Qed.

Lemma rankedRows64_weighs (rows : list JSObject) : Forall weighs (rankedRows64 rows).
Proof.
  unfold rankedRows64. apply sort64_Forall, mapIndexed_Forall.
  intros x i. apply valueRow64_weight.
Qed.

Lemma rankedRows64_length (rows : list JSObject) :
  length (rankedRows64 rows) = length rows.
Proof.
  unfold rankedRows64. rewrite sort64_length.
  generalize 0%nat. induction rows as [|r rows IH]; intros i; simpl; [reflexivity|].
  now rewrite IH.
Qed.

(** ** Finite totals *)

Lemma sumFrom_fin (l : list ValuedRow64) :
  Forall weighs l -> forall c g, weight c -> sumFrom c l = Fin g ->
  representable g
  /\ (exists c0, c = Fin c0 /\ representable c0 /\ c0 <= g)
  /\ Forall (fun v => exists w, v64_totalValue v = Fin w /\ representable w /\ w <= g) l.
Proof.
  induction 1 as [|v l Hv Hl IH]; intros c g Wc E; simpl in E.
  - subst c. split; [exact Wc|]. split; [|constructor].
    exists g. split; [reflexivity|]. split; [exact Wc | apply Qle_refl].
  - pose proof (add_weight _ _ Wc Hv) as W1.
    destruct (IH _ _ W1 E) as (Rg & (c1 & E1 & R1 & L1) & All).
    destruct (add_fin _ _ c1 Wc Hv E1) as (a & b & -> & Eb & Ra & Rb & _ & La & Lb & _).
    split; [exact Rg|]. split.
    + exists a. split; [reflexivity|]. split; [exact Ra | lra].
    + constructor; [|exact All]. exists b. split; [exact Eb|]. split; [exact Rb | lra].
Qed.

(** ** One share *)

Lemma round64_1 : exists v, round64 1 = Fin v /\ v == 1.
Proof. eexists. split; vm_compute; reflexivity. Qed.

Lemma round64_100 : exists v, round64 100 = Fin v /\ v == 100.
Proof. eexists. split; vm_compute; reflexivity. Qed.

Lemma gtb_pos (g : Q) : 0 < g -> gtb (Fin g) zero = true.
Proof. intros H. simpl. now apply Qltb_lt. Qed.

Lemma isZero_pos (g : Q) : 0 < g -> isZero g = false.
Proof.
  intros H. unfold isZero. destruct (Qeq_bool g 0) eqn:E; [|reflexivity].
  apply Qeq_bool_iff in E. lra.
Qed.

(** For [0 <= x <= g] the share of [x] is finite: the rounded quotient [q]
    is at most 1 and the rounded product [p] at most 100. *)
Lemma shareOf64_fin (g x : Q) :
  0 < g -> 0 <= x -> x <= g ->
  exists q p,
    round64 (x / g) = Fin q /\ representable q /\ q <= 1
    /\ shareOf64 (Fin g) (Fin x) = Fin p /\ representable p /\ p <= 100
    /\ round64 (q * 100) = Fin p.
Proof.
  intros Hg Hx Hxg.
  assert (Q0 : 0 <= x / g) by (apply Qle_shift_div_l; lra).
  assert (Q1 : x / g <= 1) by (apply Qle_shift_div_r; lra).
  destruct round64_1 as (v1 & E1 & V1).
  destruct (round64_mono (x / g) 1 v1 Q0 Q1 E1) as (q & Eq & Nq & Lq).
  pose proof (round64_fin_weight _ _ Q0 Eq) as Rq.
  destruct round64_100 as (v100 & E100 & V100).
  assert (P0 : 0 <= q * 100) by nra.
  assert (P1 : q * 100 <= 100) by nra.
  destruct (round64_mono (q * 100) 100 v100 P0 P1 E100) as (p & Ep & Np & Lp).
  pose proof (round64_fin_weight _ _ P0 Ep) as Rp.
  exists q, p. unfold shareOf64. rewrite (gtb_pos g Hg).
  unfold div. rewrite (isZero_pos g Hg), Eq. unfold mul, hundred. rewrite Ep.
  repeat split; try assumption; lra.
Qed.

Lemma shareOf64_mono (g x y : Q) :
  0 < g -> 0 <= x -> x <= y -> y <= g ->
  num (shareOf64 (Fin g) (Fin x)) <= num (shareOf64 (Fin g) (Fin y)).
Proof.
  intros Hg Hx Hxy Hyg.
  destruct (shareOf64_fin g x Hg Hx ltac:(lra)) as (qx & px & Ex & _ & _ & -> & _ & _ & Epx).
  destruct (shareOf64_fin g y Hg ltac:(lra) Hyg) as (qy & py & Ey & Rqy & _ & -> & _ & _ & Epy).
  cbn [num].
  assert (D : x / g <= y / g).
  { unfold Qdiv. apply Qmult_le_compat_r; [assumption|].
    apply Qlt_le_weak, Qinv_lt_0_compat, Hg. }
  assert (Q0 : 0 <= x / g) by (apply Qle_shift_div_l; lra).
  destruct (round64_mono (x / g) (y / g) qy Q0 D Ey) as (qx' & Ex' & N & L).
  rewrite Ex in Ex'. injection Ex' as <-.
  destruct (round64_mono (qx * 100) (qy * 100) py ltac:(nra) ltac:(nra) Epy)
    as (px' & Ep' & _ & Lp).
  rewrite Epx in Ep'. injection Ep' as <-. exact Lp.
Qed.

Lemma shareOf64_total (g : Q) :
  0 < g -> exists p, shareOf64 (Fin g) (Fin g) = Fin p /\ p == 100.
Proof.
  intros Hg.
  destruct (shareOf64_fin g g Hg ltac:(lra) ltac:(lra))
    as (q & p & Eq & _ & _ & E & _ & _ & Ep).
  exists p. split; [exact E|].
  destruct round64_1 as (v1 & E1 & V1).
  assert (G1 : 1 == g / g) by (field; lra).
  destruct (round64_comp 1 (g / g) v1 ltac:(lra) G1 E1) as (q' & Eq' & Vq).
  rewrite Eq in Eq'. injection Eq' as <-.
  destruct round64_100 as (v100 & E100 & V100).
  assert (G100 : 100 == q * 100) by (rewrite <- Vq, V1; ring).
  destruct (round64_comp 100 (q * 100) v100 ltac:(lra) G100 E100) as (p' & Ep' & Vp).
  rewrite Ep in Ep'. injection Ep' as <-. lra.
Qed.

(** ** The pass under a finite positive total *)

Lemma sumFrom_cons (c : number) (v : ValuedRow64) (l : list ValuedRow64) :
  sumFrom c (v :: l) = sumFrom (add c (v64_totalValue v)) l.
Proof. reflexivity. Qed.

(** What one step of the pass does when the total is finite. *)
Lemma pass_step (g c : Q) (v : ValuedRow64) (l : list ValuedRow64) :
  Forall weighs (v :: l) -> representable c ->
  sumFrom (Fin c) (v :: l) = Fin g ->
  exists w c1,
    v64_totalValue v = Fin w /\ representable w /\ w <= g
    /\ add (Fin c) (Fin w) = Fin c1 /\ representable c1
    /\ c <= c1 /\ c1 <= g
    /\ (c + w) * (1 - u) <= c1 /\ c1 <= (c + w) * (1 + u)
    /\ sumFrom (Fin c1) l = Fin g
    /\ shares64 (Fin g) (Fin c) (v :: l)
       = {| s64_rowNumber := v64_rowNumber v;
            s64_totalValue := Fin w;
            s64_contribution := shareOf64 (Fin g) (Fin w);
            s64_cumulativePercentage := shareOf64 (Fin g) (Fin c1) |}
           :: shares64 (Fin g) (Fin c1) l.
Proof.
  intros Hall Rc E. inversion Hall as [|? ? Hv Hl]; subst.
  rewrite sumFrom_cons in E.
  pose proof (add_weight (Fin c) (v64_totalValue v) Rc Hv) as W1.
  destruct (sumFrom_fin l Hl _ _ W1 E) as (Rg & (c1 & E1 & R1 & L1) & _).
  destruct (add_fin (Fin c) (v64_totalValue v) c1 Rc Hv E1)
    as (a & w & Ea & Ew & _ & Rw & _ & La & Lw & B1 & B2).
  injection Ea as <-.
  exists w, c1. cbn [shares64]. rewrite Ew in *. rewrite E1 in *.
  repeat split; try assumption; lra.
Qed.

Lemma pass_monotone (g : Q) (l : list ValuedRow64) :
  0 < g -> Forall weighs l -> forall c, representable c ->
  sumFrom (Fin c) l = Fin g ->
  Forall (fun s => isFin (s64_cumulativePercentage s)
                   /\ isFin (s64_contribution s)
                   /\ num (shareOf64 (Fin g) (Fin c)) <= cum64 s)
    (shares64 (Fin g) (Fin c) l)
  /\ StronglySorted (fun a b => cum64 a <= cum64 b) (shares64 (Fin g) (Fin c) l).
Proof.
  intros Hg. induction l as [|v l IH]; intros Hall c Rc E.
  - split; constructor.
  - destruct (pass_step g c v l Hall Rc E)
      as (w & c1 & Ew & Rw & Lw & E1 & R1 & Lc & Lg & _ & _ & Es & ->).
    inversion Hall as [|? ? _ Hl]; subst.
    destruct (IH Hl c1 R1 Es) as [Low Sorted].
    pose proof (representable_nonneg c Rc) as Nc.
    pose proof (representable_nonneg w Rw) as Nw.
    pose proof (representable_nonneg c1 R1) as N1.
    pose proof (shareOf64_mono g c c1 Hg Nc Lc Lg) as M.
    destruct (shareOf64_fin g c1 Hg N1 Lg) as (q1 & p1 & _ & _ & _ & Ep1 & _).
    destruct (shareOf64_fin g w Hg Nw Lw) as (qw & pw & _ & _ & _ & Epw & _).
    split.
    + constructor.
      * cbn. rewrite Ep1, Epw. cbn. repeat split. rewrite Ep1 in M. exact M.
      * eapply Forall_impl; [|exact Low]. cbv beta. intros s (F1 & F2 & L).
        repeat split; try assumption. lra.
    + constructor; [exact Sorted|].
      eapply Forall_impl; [|exact Low]. cbv beta. intros s (_ & _ & L).
      unfold cum64 at 1. cbn. exact L.
Qed.

Lemma shares64_length (G c : number) (l : list ValuedRow64) :
  length (shares64 G c l) = length l.
Proof.
  revert c. induction l as [|v l IH]; intros c; simpl; [reflexivity|].
  now rewrite IH.
Qed.

Lemma pass_last (g : Q) (l : list ValuedRow64) :
  0 < g -> Forall weighs l -> forall c init z, representable c ->
  sumFrom (Fin c) l = Fin g ->
  shares64 (Fin g) (Fin c) l = (init ++ [z])%list ->
  isFin (s64_cumulativePercentage z) /\ cum64 z == 100.
Proof.
  intros Hg. induction l as [|v l IH]; intros Hall c init z Rc E Eout.
  - now destruct init.
  - destruct (pass_step g c v l Hall Rc E)
      as (w & c1 & Ew & Rw & Lw & E1 & R1 & Lc & Lg & _ & _ & Es & Eq).
    rewrite Eq in Eout. inversion Hall as [|? ? _ Hl]; subst.
    destruct init as [|s0 init]; cbn [app] in Eout.
    + injection Eout as <- Enil.
      assert (l = []) as ->.
      { apply length_zero_iff_nil.
        rewrite <- (shares64_length (Fin g) (Fin c1) l). now rewrite Enil. }
      cbn in Es. injection Es as ->.
      destruct (shareOf64_total g Hg) as (p & Ep & Vp).
      unfold cum64. cbn. rewrite Ep. cbn. now split.
    + injection Eout as _ Eout. exact (IH Hl c1 init z R1 Es Eout).
Qed.

Lemma pass_zero (G c : number) (l : list ValuedRow64) :
  gtb G zero = false ->
  Forall (fun s => s64_contribution s = Fin 0 /\ s64_cumulativePercentage s = Fin 0)
    (shares64 G c l).
Proof.
  intros H. revert c. induction l as [|v l IH]; intros c; simpl; constructor.
  - cbn. unfold shareOf64. rewrite H. now split.
  - apply IH.
Qed.

(** ** Conservation up to rounding *)

Lemma u_bounds : 0 < u /\ u < 1.
Proof. split; [apply pow2_pos|]. unfold u. change 1 with (pow2 0). apply pow2_lt. lia. Qed.

Lemma eta_pos : 0 < eta.
Proof. apply pow2_pos. Qed.

(** The contribution of a weight [w <= g], against the exact [w / g * 100]. *)
Lemma share_err (g w : Q) :
  0 < g -> representable w -> w <= g ->
  100 * (1 - u) * ((w / g) * (1 - u) - eta) <= num (shareOf64 (Fin g) (Fin w))
  /\ num (shareOf64 (Fin g) (Fin w)) <= 100 * (1 + u) * ((w / g) * (1 + u) + eta).
Proof.
  intros Hg Rw Lw. pose proof (representable_nonneg w Rw) as Nw.
  destruct (shareOf64_fin g w Hg Nw Lw) as (q & p & Eq & Rq & Lq & -> & Rp & Lp & Ep).
  cbn [num].
  assert (Q0 : 0 <= w / g) by (apply Qle_shift_div_l; lra).
  pose proof (representable_nonneg q Rq) as Nq.
  destruct (round64_err_any (w / g) q Q0 Eq) as [A1 A2].
  assert (Gq : grid (q * 100)).
  { change 100 with (inject_Z 100). apply grid_mult_Z, representable_grid, Rq. }
  destruct (round64_err_grid (q * 100) p ltac:(nra) Gq Ep) as [B1 B2].
  destruct u_bounds as [U0 U1]. pose proof eta_pos as H0.
  set (r := w / g) in *. clearbody r.
  set (U := u) in *. clearbody U. set (H := eta) in *. clearbody H.
  split; nra.
Qed.

Lemma len_cons {A : Type} (x : A) (l : list A) : len (x :: l) == len l + 1.
Proof.
  unfold len. cbn [length]. rewrite Nat2Z.inj_succ, <- Z.add_1_r.
  now rewrite inject_Z_plus.
Qed.

Lemma len_nonneg {A : Type} (l : list A) : 0 <= len l.
Proof. unfold len. change 0 with (inject_Z 0). rewrite <- Zle_Qle. lia. Qed.

(** Contributions against the exact weights: [A w - B <= c <= A' w + B']. *)
Lemma contributions_err (g : Q) (l : list ValuedRow64) :
  0 < g -> Forall weighs l -> forall c, representable c ->
  sumFrom (Fin c) l = Fin g ->
  let S := Qsum (map weightOf l) in
  let C := Qsum (map contrib64 (shares64 (Fin g) (Fin c) l)) in
  100 * (1 - u) * ((S / g) * (1 - u) - len l * eta) <= C
  /\ C <= 100 * (1 + u) * ((S / g) * (1 + u) + len l * eta).
Proof.
  intros Hg. induction l as [|v l IH]; intros Hall c Rc E; cbn zeta.
  - cbn. unfold len. cbn. unfold Qdiv. split; ring_simplify; apply Qle_refl.
  - destruct (pass_step g c v l Hall Rc E)
      as (w & c1 & Ew & Rw & Lw & E1 & R1 & Lc & Lg & _ & _ & Es & ->).
    inversion Hall as [|? ? _ Hl]; subst.
    specialize (IH Hl c1 R1 Es). cbn zeta in IH. destruct IH as [I1 I2].
    destruct (share_err g w Hg Rw Lw) as [S1 S2].
    cbn [map Qsum fold_right]. unfold contrib64 at 1 3. cbn [s64_contribution].
    unfold weightOf at 1 3. rewrite Ew. cbn [num].
    fold (Qsum (map weightOf l)).
    fold (Qsum (map contrib64 (shares64 (Fin g) (Fin c1) l))).
    rewrite len_cons.
    set (S := Qsum (map weightOf l)) in *.
    set (C := Qsum (map contrib64 (shares64 (Fin g) (Fin c1) l))) in *.
    set (x := num (shareOf64 (Fin g) (Fin w))) in *.
    assert (D : (w + S) / g == w / g + S / g) by (field; lra).
    rewrite D. set (a := w / g) in *. set (b := S / g) in *.
    clearbody a b x C. set (n := len l) in *. clearbody n.
    set (U := u) in *. set (H := eta) in *. clearbody U H.
    split; lra.
Qed.

(** The rounded sum of the weights against the exact one. *)
Lemma sum_err (g : Q) (l : list ValuedRow64) :
  Forall weighs l -> forall c S0 i, representable c ->
  sumFrom (Fin c) l = Fin g ->
  0 <= S0 -> 0 <= i ->
  S0 * (1 - i * u) <= c -> c <= S0 * (1 + 2 * i * u) ->
  2 * (i + len l) * u <= 1 ->
  let S := S0 + Qsum (map weightOf l) in
  S * (1 - (i + len l) * u) <= g /\ g <= S * (1 + 2 * (i + len l) * u).
Proof.
  induction l as [|v l IH]; intros Hall c S0 i Rc E HS Hi L1 L2 Hn; cbn zeta.
  - cbn in E. injection E as <-. cbn [map Qsum fold_right].
    assert (Z : len (@nil ValuedRow64) == 0) by reflexivity.
    rewrite Z. split; ring_simplify; ring_simplify in L1; ring_simplify in L2; lra.
  - destruct (pass_step g c v l Hall Rc E)
      as (w & c1 & Ew & Rw & Lw & E1 & R1 & Lc & Lg & B1 & B2 & Es & _).
    inversion Hall as [|? ? _ Hl]; subst.
    pose proof (representable_nonneg w Rw) as Nw.
    pose proof (len_nonneg l) as Nl.
    rewrite len_cons in Hn |- *.
    destruct u_bounds as [U0 U1].
    assert (A1 : (S0 + w) * (1 - (i + 1) * u) <= c1).
    { set (U := u) in *. clearbody U.
      assert (0 <= S0 * (i * (U * U))) by (repeat apply Qmult_le_0_compat; lra).
      assert (0 <= w * (i * U)) by (repeat apply Qmult_le_0_compat; lra).
      assert ((S0 * (1 - i * U) + w) * (1 - U) <= (c + w) * (1 - U))
        by (apply Qmult_le_compat_r; lra).
      lra. }
    assert (A2 : c1 <= (S0 + w) * (1 + 2 * (i + 1) * u)).
    { set (U := u) in *. clearbody U.
      assert (I2 : 2 * i * U <= 1).
      { assert (0 <= 2 * (len l + 1) * U) by (repeat apply Qmult_le_0_compat; lra). lra. }
      assert (0 <= S0 * (U * (1 - 2 * i * U))) by (repeat apply Qmult_le_0_compat; lra).
      assert (0 <= w * ((2 * i + 1) * U)) by (repeat apply Qmult_le_0_compat; lra).
      assert ((c + w) * (1 + U) <= (S0 * (1 + 2 * i * U) + w) * (1 + U))
        by (apply Qmult_le_compat_r; lra).
      lra. }
    assert (Hn' : 2 * (i + 1 + len l) * u <= 1) by lra.
    destruct (IH Hl c1 (S0 + w) (i + 1) R1 Es ltac:(lra) ltac:(lra) A1 A2 Hn')
      as [G1 G2].
    cbn zeta in G1, G2. cbn [map Qsum fold_right]. unfold weightOf at 1 3.
    rewrite Ew. cbn [num]. fold (Qsum (map weightOf l)).
    set (S := Qsum (map weightOf l)) in *. clearbody S.
    set (n := len l) in *. clearbody n. set (U := u) in *. clearbody U.
    split; lra.
Qed.

Lemma Qsum_weights_nonneg (l : list ValuedRow64) :
  Forall weighs l -> forall c g, weight c -> sumFrom c l = Fin g ->
  0 <= Qsum (map weightOf l).
Proof.
  intros Hall c g Wc E. destruct (sumFrom_fin l Hall c g Wc E) as (_ & _ & All).
  clear E. induction All as [|v l (w & Ew & Rw & _) _ IH]; cbn; [apply Qle_refl|].
  inversion Hall; subst. unfold weightOf at 1. rewrite Ew. cbn [num].
  pose proof (representable_nonneg w Rw). specialize (IH ltac:(assumption)).
  unfold Qsum in IH. lra.
Qed.

Lemma closed_upper :
  100 * (1 + u) * ((1 / (1 - maxRows * u)) * (1 + u) + maxRows * eta)
  <= 100 + 100 * (1 # 1000000).
Proof. apply Qle_bool_iff. vm_compute. reflexivity. Qed.

Lemma closed_lower :
  100 - 100 * (1 # 1000000)
  <= 100 * (1 - u) * ((1 / (1 + 2 * maxRows * u)) * (1 - u) - maxRows * eta).
Proof. apply Qle_bool_iff. vm_compute. reflexivity. Qed.

Lemma closed_small : 2 * maxRows * u <= 1 /\ 0 < 1 - maxRows * u.
Proof.
  split; [apply Qle_bool_iff; vm_compute; reflexivity|].
  apply Qltb_lt. vm_compute. reflexivity.
Qed.

Lemma conservation64 (g : Q) (l : list ValuedRow64) :
  0 < g -> Forall weighs l -> sumFrom zero l = Fin g -> len l <= maxRows ->
  Qabs (Qsum (map contrib64 (shares64 (Fin g) zero l)) - 100)
    <= 100 * (1 # 1000000).
Proof.
  intros Hg Hall E Hn.
  pose proof (Qsum_weights_nonneg l Hall zero g representable_0 E) as NS.
  destruct (contributions_err g l Hg Hall 0 representable_0 E) as [C1 C2].
  cbn zeta in C1, C2.
  destruct closed_small as [K1 K2]. destruct u_bounds as [U0 U1].
  pose proof eta_pos as H0. pose proof (len_nonneg l) as Nl.
  assert (Hn2 : 2 * (0 + len l) * u <= 1).
  { assert (len l * u <= maxRows * u) by (apply Qmult_le_compat_r; lra). lra. }
  destruct (sum_err g l Hall 0 0 0 representable_0 E ltac:(lra) ltac:(lra)
              ltac:(lra) ltac:(lra) Hn2) as [G1 G2].
  cbn zeta in G1, G2.
  set (S := Qsum (map weightOf l)) in *.
  set (C := Qsum (map contrib64 (shares64 (Fin g) zero l))) in *.
  fold zero in C1, C2. fold C in C1, C2.
  set (r := S / g) in *.
  assert (R0 : 0 <= r) by (apply Qle_shift_div_l; lra).
  assert (Er : S == r * g) by (unfold r; field; lra).
  clearbody r C S.
  (* r (1 - n u) <= 1 <= r (1 + 2 n u) *)
  assert (R1 : r * (1 - len l * u) <= 1).
  { apply Qmult_le_r with (z := g); [exact Hg|].
    assert (X : r * (1 - len l * u) * g == (0 + r * g) * (1 - (0 + len l) * u)) by ring.
    rewrite X, <- Er, Qmult_1_l. exact G1. }
  assert (R2 : 1 <= r * (1 + 2 * len l * u)).
  { apply Qmult_le_r with (z := g); [exact Hg|].
    assert (X : r * (1 + 2 * len l * u) * g == (0 + r * g) * (1 + 2 * (0 + len l) * u)) by ring.
    rewrite X, <- Er, Qmult_1_l. exact G2. }
  assert (M1 : r * (len l * u) <= r * (maxRows * u)).
  { rewrite !(Qmult_comm r). apply Qmult_le_compat_r; [|exact R0].
    apply Qmult_le_compat_r; lra. }
  assert (MU : 0 <= maxRows * u) by (apply Qmult_le_0_compat; lra).
  assert (R3 : r <= 1 / (1 - maxRows * u)).
  { apply Qle_shift_div_l; [exact K2|]. lra. }
  assert (R4 : 1 / (1 + 2 * maxRows * u) <= r).
  { apply Qle_shift_div_r; [lra|]. lra. }
  pose proof closed_upper as CU. pose proof closed_lower as CL.
  set (ku := 1 / (1 - maxRows * u)) in *.
  set (kl := 1 / (1 + 2 * maxRows * u)) in *.
  assert (T1 : r * (1 + u) + len l * eta <= ku * (1 + u) + maxRows * eta).
  { assert (r * (1 + u) <= ku * (1 + u)) by (apply Qmult_le_compat_r; lra).
    assert (len l * eta <= maxRows * eta) by (apply Qmult_le_compat_r; lra). lra. }
  assert (T2 : kl * (1 - u) - maxRows * eta <= r * (1 - u) - len l * eta).
  { assert (kl * (1 - u) <= r * (1 - u)) by (apply Qmult_le_compat_r; lra).
    assert (len l * eta <= maxRows * eta) by (apply Qmult_le_compat_r; lra). lra. }
  assert (T3 : 100 * (1 + u) * (r * (1 + u) + len l * eta)
               <= 100 * (1 + u) * (ku * (1 + u) + maxRows * eta)).
  { rewrite !(Qmult_comm (100 * (1 + u))). apply Qmult_le_compat_r; lra. }
  assert (T4 : 100 * (1 - u) * (kl * (1 - u) - maxRows * eta)
               <= 100 * (1 - u) * (r * (1 - u) - len l * eta)).
  { rewrite !(Qmult_comm (100 * (1 - u))). apply Qmult_le_compat_r; lra. }
  apply Qabs_Qle_condition. split; lra.
Qed.

Lemma len_rows (rows : list JSObject) :
  (Z.of_nat (length rows) <= 2 ^ 32)%Z -> len (rankedRows64 rows) <= maxRows.
Proof.
  intros H. unfold len, maxRows. rewrite rankedRows64_length.
  now rewrite <- Zle_Qle.
Qed.

(** The rounding at work: 0.1 + 0.2 is 0.30000000000000004, 2^53 + 1 is not
    a double, the weights 0.2, 1.7 and 7.6 put the heaviest row at
    80.00000000000001 percent, and a decimal of 400 digits overflows. *)
Lemma round64_examples :
  num (add (round64 (1 # 10)) (round64 (2 # 10)))
    == 1351079888211149 # 4503599627370496
  /\ num (round64 (inject_Z (2 ^ 53 + 1))) == inject_Z (2 ^ 53)
  /\ num (mul (div (round64 (76 # 10))
                 (add (add (round64 (76 # 10)) (round64 (17 # 10)))
                      (round64 (2 # 10))))
              hundred)
     == 5629499534213121 # 70368744177664
  /\ round64 (inject_Z (10 ^ 400)) = Inf false.
Proof. vm_compute. repeat split. Qed.

(** C3: in the arithmetic of the program (binary64), for every sheet whose
    total weight is finite: when the total is positive every contribution
    and every cumulative percentage is a finite number, the exact sum of the
    contributions is within 1e-6 (relative) of 100 for any number of rows an
    array can hold, the cumulative percentage never decreases along the
    ranked rows and the last one is exactly 100; when the total is 0 every
    contribution and every cumulative percentage is 0. *)
Theorem C3_shares_binary64 (rows : list JSObject) (g : Q) :
  grandTotal64 rows = Fin g ->
  let out := paretoShares64 rows in
  (0 < g ->
     Forall (fun s => isFin (s64_contribution s)
                      /\ isFin (s64_cumulativePercentage s)) out
     /\ ((Z.of_nat (length rows) <= 2 ^ 32)%Z ->
         Qabs (Qsum (map contrib64 out) - 100) <= tolerance)
     /\ StronglySorted (fun a b => cum64 a <= cum64 b) out
     /\ (forall init z, out = (init ++ [z])%list -> cum64 z == 100))
  /\ (g == 0 ->
      Forall (fun s => s64_contribution s = Fin 0
                       /\ s64_cumulativePercentage s = Fin 0) out).
Proof.
  intros E out. unfold out, paretoShares64. rewrite E.
  assert (Es : sumFrom zero (rankedRows64 rows) = Fin g) by exact E.
  pose proof (rankedRows64_weighs rows) as W.
  split.
  - intros Hg.
    destruct (pass_monotone g _ Hg W 0 representable_0 Es) as [Hall Hs].
    split; [|split; [|split]].
    + eapply Forall_impl; [|exact Hall]. cbn beta. tauto.
    + intros Hn. apply conservation64; auto using len_rows.
    + exact Hs.
    + intros init z Hz.
      now destruct (pass_last g _ Hg W 0 init z representable_0 Es Hz).
  - intros Hz. apply pass_zero. unfold gtb, zero.
    apply Qltb_ge. rewrite Hz. apply Qle_refl.
Qed.

(** On scenario A (weights 90 and 10) and on a sheet without numbers. *)
Lemma C3_shares_binary64_witness :
  (let out := paretoShares64 (parseCSV scenarioA) in
   Forall (fun s => isFin (s64_contribution s)
                    /\ isFin (s64_cumulativePercentage s)) out
   /\ Qabs (Qsum (map contrib64 out) - 100) <= tolerance
   /\ StronglySorted (fun a b => cum64 a <= cum64 b) out
   /\ (forall init z, out = (init ++ [z])%list -> cum64 z == 100))
  /\ Forall (fun s => s64_contribution s = Fin 0
                      /\ s64_cumulativePercentage s = Fin 0)
       (paretoShares64 (parseCSV scenarioNoNumbers)).
Proof.
  split.
  - intros out.
    destruct (C3_shares_binary64 (parseCSV scenarioA)
                (num (grandTotal64 (parseCSV scenarioA)))) as [Hpos _].
    { vm_compute. reflexivity. }
    destruct Hpos as (Hfin & Hsum & Hmono & Hlast).
    { vm_compute. reflexivity. }
    split; [exact Hfin|]. split; [|split; [exact Hmono | exact Hlast]].
    apply Hsum. vm_compute. discriminate.
  - destruct (C3_shares_binary64 (parseCSV scenarioNoNumbers) 0) as [_ Hzero].
    { vm_compute. reflexivity. }
    apply Hzero. reflexivity.
Defined.

(** The claim as it was stated fails on a sheet with the rows [A,99...9]
    (400 nines) and [B,1]: the first weight and the total are [Infinity],
    which is greater than 0, the contributions are [NaN] and 0, their sum is
    [NaN], and the cumulative percentages are [NaN], the last one
    included. *)
Lemma C3_counterexample :
  let rows := parseCSV overflowText in
  let out := paretoShares64 rows in
  grandTotal64 rows = Inf false
  /\ gtb (grandTotal64 rows) zero = true
  /\ map s64_contribution out = [NaN; Fin 0]
  /\ sumNumbers (map s64_contribution out) = NaN
  /\ map s64_cumulativePercentage out = [NaN; NaN].
Proof. vm_compute. repeat split. Qed.

(** ** Totals of every kind *)

Lemma sumFrom_weight (l : list ValuedRow64) :
  Forall weighs l -> forall c, weight c -> weight (sumFrom c l).
Proof.
  induction 1 as [|v l Hv _ IH]; intros c Wc; [exact Wc|].
  rewrite sumFrom_cons. apply IH. now apply add_weight.
Qed.

Lemma weight_cases (x : number) :
  weight x -> x = Inf false \/ exists q, x = Fin q /\ 0 <= q.
Proof.
  destruct x as [q|s|]; simpl; [|intros ->; now left|contradiction].
  intros R. right. exists q. split; [reflexivity|].
  now apply representable_nonneg.
Qed.

(** X18: in the arithmetic of the program the weight of a row and the total
    of the summary are never [NaN] and never negative: each is a
    non-negative number or [Infinity]. *)
Theorem X18_weights64 (rows : list JSObject) :
  Forall (fun v => v64_totalValue v = Inf false
                   \/ exists w, v64_totalValue v = Fin w /\ 0 <= w)
    (rankedRows64 rows)
  /\ (grandTotal64 rows = Inf false
      \/ exists g, grandTotal64 rows = Fin g /\ 0 <= g).
Proof.
  pose proof (rankedRows64_weighs rows) as W. split.
  - eapply Forall_impl; [|exact W]. intros v. apply weight_cases.
  - apply weight_cases. apply (sumFrom_weight _ W zero). apply representable_0.
Qed.

Lemma pass_ranges (g : Q) (l : list ValuedRow64) :
  0 < g -> Forall weighs l -> forall c, representable c ->
  sumFrom (Fin c) l = Fin g ->
  Forall (fun s => 0 <= contrib64 s /\ contrib64 s <= cum64 s /\ cum64 s <= 100)
    (shares64 (Fin g) (Fin c) l).
Proof.
  intros Hg. induction l as [|v l IH]; intros Hall c Rc E; [constructor|].
  destruct (pass_step g c v l Hall Rc E)
    as (w & c1 & Ew & Rw & Lw & E1 & R1 & Lc & Lg & _ & _ & Es & ->).
  inversion Hall as [|? ? _ Hl]; subst.
  constructor; [|now apply IH].
  unfold contrib64, cum64. cbn [s64_contribution s64_cumulativePercentage].
  destruct (add_fin (Fin c) (Fin w) c1 Rc Rw E1)
    as (a & b & _ & Eb & _ & _ & _ & _ & Lb & _).
  injection Eb as <-.
  pose proof (representable_nonneg w Rw) as W0.
  pose proof (shareOf64_mono g w c1 Hg W0 Lb Lg) as M.
  destruct (shareOf64_fin g w Hg W0 Lw) as (_ & p & _ & _ & _ & Ep & Rp & _ & _).
  destruct (shareOf64_fin g c1 Hg ltac:(lra) Lg) as (_ & p1 & _ & _ & _ & Ep1 & _ & L1 & _).
  rewrite Ep in *. rewrite Ep1 in *. cbn [num] in *.
  pose proof (representable_nonneg p Rp). repeat split; assumption.
Qed.

(** X19: in the arithmetic of the program, when the total is finite every
    contribution and every cumulative percentage is a finite number, the
    contribution of a row is between 0 and its cumulative percentage, and
    the cumulative percentage is at most 100. *)
Theorem X19_ranges64 (rows : list JSObject) (g : Q) (s : Shares64) :
  grandTotal64 rows = Fin g -> In s (paretoShares64 rows) ->
  isFin (s64_contribution s) /\ isFin (s64_cumulativePercentage s)
  /\ 0 <= contrib64 s /\ contrib64 s <= cum64 s /\ cum64 s <= 100.
Proof.
  intros E Hs. unfold paretoShares64 in Hs. rewrite E in Hs.
  assert (Es : sumFrom zero (rankedRows64 rows) = Fin g) by exact E.
  pose proof (rankedRows64_weighs rows) as W.
  destruct (sumFrom_fin _ W zero g representable_0 Es) as (Rg & _ & _).
  pose proof (representable_nonneg g Rg) as G0.
  destruct (Qlt_le_dec 0 g) as [Hg|Hz].
  - destruct (pass_monotone g _ Hg W 0 representable_0 Es) as [Hall _].
    pose proof (pass_ranges g _ Hg W 0 representable_0 Es) as Hr.
    rewrite Forall_forall in Hall, Hr.
    destruct (Hall s Hs) as (F1 & F2 & _). destruct (Hr s Hs) as (R1 & R2 & R3).
    repeat split; assumption.
  - assert (Z : gtb (Fin g) zero = false) by (apply Qltb_ge; exact Hz).
    pose proof (pass_zero (Fin g) zero (rankedRows64 rows) Z) as H0.
    rewrite Forall_forall in H0. destruct (H0 s Hs) as [E1 E2].
    unfold contrib64, cum64. rewrite E1, E2. cbn. repeat split; lra.
Qed.

Lemma X19_ranges64_witness :
  Forall (fun s => 0 <= contrib64 s /\ contrib64 s <= cum64 s /\ cum64 s <= 100)
    (paretoShares64 (parseCSV scenarioA)).
Proof.
  rewrite Forall_forall. intros s Hs.
  apply (X19_ranges64 (parseCSV scenarioA)
           (num (grandTotal64 (parseCSV scenarioA))) s);
    [vm_compute; reflexivity | exact Hs].
Defined.

(** ** An infinite total *)
Lemma shareOf64_inf (x : number) :
  weight x ->
  (exists a, x = Fin a /\ shareOf64 (Inf false) x = Fin 0)
  \/ (x = Inf false /\ shareOf64 (Inf false) x = NaN).
Proof.
  destruct x as [a|s|]; simpl; [|intros ->; right; now split|contradiction].
  intros _. left. exists a. split; [reflexivity|]. reflexivity.
Qed.

Lemma pass_inf (l : list ValuedRow64) :
  Forall weighs l -> forall c, weight c -> sumFrom c l = Inf false ->
  Forall (fun s => (s64_contribution s = Fin 0 \/ s64_contribution s = NaN)
                   /\ (s64_cumulativePercentage s = Fin 0
                       \/ s64_cumulativePercentage s = NaN))
    (shares64 (Inf false) c l)
  /\ (forall init z, shares64 (Inf false) c l = (init ++ [z])%list ->
        s64_cumulativePercentage z = NaN).
Proof.
  induction 1 as [|v l Hv Hl IH]; intros c Wc E.
  - split; [constructor|]. intros init z H. now destruct init.
  - rewrite sumFrom_cons in E.
    pose proof (add_weight c (v64_totalValue v) Wc Hv) as W1.
    destruct (IH _ W1 E) as [IH1 IH2]. cbn [shares64]. split.
    + constructor; [|exact IH1]. cbn [s64_contribution s64_cumulativePercentage].
      split.
      * destruct (shareOf64_inf _ Hv) as [(a & _ & ->)|[_ ->]]; auto.
      * destruct (shareOf64_inf _ W1) as [(a & _ & ->)|[_ ->]]; auto.
    + intros init z H. destruct init as [|s0 init]; cbn [app] in H.
      * injection H as <- Hnil. cbn [s64_cumulativePercentage].
        assert (l = []) as ->.
        { apply length_zero_iff_nil.
          rewrite <- (shares64_length (Inf false) (add c (v64_totalValue v)) l).
          now rewrite Hnil. }
        cbn in E. rewrite E. reflexivity.
      * injection H as _ H. exact (IH2 _ _ H).
Qed.

(** X20: in the arithmetic of the program, when the total is [Infinity]
    (a weight or the sum of the weights overflows) the report has rows,
    every contribution and every cumulative percentage is 0 or [NaN], and
    the cumulative percentage of the last row is [NaN]. *)
Theorem X20_overflow (rows : list JSObject) :
  grandTotal64 rows = Inf false ->
  let out := paretoShares64 rows in
  out <> []
  /\ Forall (fun s => (s64_contribution s = Fin 0 \/ s64_contribution s = NaN)
                      /\ (s64_cumulativePercentage s = Fin 0
                          \/ s64_cumulativePercentage s = NaN)) out
  /\ (forall init z, out = (init ++ [z])%list -> s64_cumulativePercentage z = NaN).
Proof.
  intros E out. unfold out, paretoShares64. rewrite E.
  assert (Es : sumFrom zero (rankedRows64 rows) = Inf false) by exact E.
  pose proof (rankedRows64_weighs rows) as W.
  destruct (pass_inf _ W zero (representable_0 : weight zero) Es) as [H1 H2].
  split; [|split; assumption].
  intros Hnil. apply (f_equal (@length _)) in Hnil.
  rewrite shares64_length in Hnil. apply length_zero_iff_nil in Hnil.
  rewrite Hnil in Es. discriminate Es.
Qed.

Lemma X20_overflow_witness :
  Forall (fun s => (s64_contribution s = Fin 0 \/ s64_contribution s = NaN)
                   /\ (s64_cumulativePercentage s = Fin 0
                       \/ s64_cumulativePercentage s = NaN))
    (paretoShares64 (parseCSV overflowText))
  /\ exists init z,
       paretoShares64 (parseCSV overflowText) = (init ++ [z])%list
       /\ s64_cumulativePercentage z = NaN.
Proof.
  destruct (X20_overflow (parseCSV overflowText)) as (_ & Hall & Hlast).
  { vm_compute. reflexivity. }
  split; [exact Hall|].
  exists [nth 0 (paretoShares64 (parseCSV overflowText))
            (mkShares64 0 NaN NaN NaN)],
         (nth 1 (paretoShares64 (parseCSV overflowText))
            (mkShares64 0 NaN NaN NaN)).
  assert (E : paretoShares64 (parseCSV overflowText)
              = ([nth 0 (paretoShares64 (parseCSV overflowText))
                    (mkShares64 0 NaN NaN NaN)]
                 ++ [nth 1 (paretoShares64 (parseCSV overflowText))
                       (mkShares64 0 NaN NaN NaN)])%list)
    by (vm_compute; reflexivity).
  split; [exact E | exact (Hlast _ _ E)].
Defined.

(** ** Sheets without numbers *)

Lemma rankedRows_zero (rows : list JSObject) :
  Forall (fun row => hasNumericField row = false) rows ->
  Forall (fun v => vr_totalValue v == 0) (rankedRows rows).
Proof.
  intros H. rewrite Forall_forall in *. intros v Hv.
  destruct (rankedRows_In _ _ Hv) as (k & row & Hk & ->).
  rewrite valueRow_total, (convertedNumbers_none row); [reflexivity|].
  eapply H, nth_error_In, Hk.
Qed.

Lemma Qsum_zero (l : list Q) : Forall (fun x => x == 0) l -> Qsum l == 0.
Proof.
  induction 1 as [|x l Hx _ IH]; simpl; [reflexivity|]. rewrite Hx, IH. ring.
Qed.

Lemma countClass_all (c : string) (l : list RowAnalysis) :
  Forall (fun r => classification r = c) l -> countClass c l = length l.
Proof.
  unfold countClass. induction 1 as [|r l Hr _ IH]; [reflexivity|].
  simpl. rewrite Hr, String.eqb_refl. simpl. now rewrite IH.
Qed.

Lemma countClass_none (c c' : string) (l : list RowAnalysis) :
  c <> c' -> Forall (fun r => classification r = c) l -> countClass c' l = 0%nat.
Proof.
  unfold countClass. intros Hc. induction 1 as [|r l Hr _ IH]; [reflexivity|].
  simpl. rewrite Hr. apply String.eqb_neq in Hc. now rewrite Hc.
Qed.

(** C4, as the code has it: on rows without any numeric cell the total is 0,
    every contribution and every cumulative percentage is 0, and every row is
    "Alta Prioridad" with score 30 (0 is at most 80); the report has one
    entry per row, all counted as high priority. *)
Theorem C4_zero_weight (rows : list JSObject) :
  Forall (fun row => hasNumericField row = false) rows ->
  let res := performParetoAnalysis rows in
  summaryTotalValue (summary res) == 0
  /\ Forall (fun r => contributionOf r == 0 /\ cumulativeOf r == 0
                      /\ classification r = "Alta Prioridad"
                      /\ paretoScore r == 30) (rowAnalyses res)
  /\ length (rowAnalyses res) = length rows
  /\ highPriority (summary res) = length rows
  /\ mediumPriority (summary res) = 0%nat
  /\ lowPriority (summary res) = 0%nat.
Proof.
  intros H. simpl. set (G := sumTotalValue (rankedRows rows)).
  assert (HG : G == 0).
  { unfold G. rewrite sumTotalValue_Qsum. apply Qsum_zero.
    rewrite Forall_map. now apply rankedRows_zero. }
  assert (Hall : Forall (fun r => contributionOf r == 0 /\ cumulativeOf r == 0
                      /\ classification r = ALTA /\ paretoScore r == 30)
                   (analyzeRows G 0 (rankedRows rows))).
  { rewrite Forall_forall. intros r Hr.
    destruct (analyzeRows_In _ _ _ _ Hr) as (cv & v & _ & ->).
    destruct (analyzeRow_spec G cv v) as (_ & _ & _ & _ & Hc & Hcum & E & _).
    unfold contributionOf, cumulativeOf.
    rewrite shareOf_zero in Hc, Hcum by lra. rewrite Hc, Hcum in *.
    unfold classify in E. simpl in E. injection E as -> ->.
    repeat split; reflexivity. }
  assert (Hcls : Forall (fun r => classification r = ALTA)
                   (analyzeRows G 0 (rankedRows rows)))
    by (eapply Forall_impl; [|exact Hall]; simpl; tauto).
  split; [exact HG|]. split; [exact Hall|].
  rewrite (countClass_all _ _ Hcls).
  rewrite !(countClass_none ALTA) by (assumption || discriminate).
  now rewrite analyzeRows_length, rankedRows_length.
Qed.

Lemma C4_zero_weight_witness :
  let res := performParetoAnalysis (parseCSV scenarioNoNumbers) in
  summaryTotalValue (summary res) == 0 /\ highPriority (summary res) = 1%nat.
Proof.
  assert (H : Forall (fun row => hasNumericField row = false)
                (parseCSV scenarioNoNumbers))
    by (repeat constructor).
  destruct (C4_zero_weight _ H) as (H1 & _ & _ & H2 & _).
  split; [exact H1 | exact H2].
Defined.

(** C4 as the specification words it fails: the one row of
    [name / Alice] has no numeric cell and is not "Baja Prioridad". *)
Lemma C4_counterexample :
  let rows := parseCSV scenarioNoNumbers in
  rows <> []
  /\ Forall (fun row => hasNumericField row = false) rows
  /\ ~ Forall (fun r => classification r = "Baja Prioridad")
         (rowAnalyses (performParetoAnalysis rows)).
Proof.
  split; [discriminate|]. split; [repeat constructor|].
  intros H. inversion H as [|r l Hr _ E]. vm_compute in Hr. discriminate.
Qed.

(** ** The ranking *)

Lemma StronglySorted_weaken {A : Type} (R S : A -> A -> Prop) (l : list A) :
  (forall a b, R a b -> S a b) -> StronglySorted R l -> StronglySorted S l.
Proof.
  intros HRS. induction 1 as [|x l _ IH Hx]; constructor; [assumption|].
  eapply Forall_impl; [|exact Hx]. apply HRS.
Qed.

Lemma mapIndexed_rowNumbers (rows : list JSObject) : forall i,
  map vr_rowNumber (mapIndexed valueRow i rows) = seq (i + 1) (length rows).
Proof.
  induction rows as [|row rows IH]; intros i; simpl; [reflexivity|].
  f_equal. now rewrite IH.
Qed.

Lemma mapIndexed_earlier (rows : list JSObject) : forall i,
  StronglySorted earlier (mapIndexed valueRow i rows).
Proof.
  induction rows as [|row rows IH]; intros i; simpl; constructor; [apply IH|].
  rewrite Forall_forall. intros v Hv.
  destruct (mapIndexed_In _ _ _ _ Hv) as (k & x & _ & ->).
  unfold earlier. simpl. lia.
Qed.

Lemma rankedRows_sorted (rows : list JSObject) :
  StronglySorted rankedBefore (map valuedKey (rankedRows rows)).
Proof.
  apply (proj1 (StronglySorted_map valuedKey rankedBefore _)).
  apply StronglySorted_weaken with (R := ranks byTotalValueDesc earlier).
  - unfold ranks, rankedBefore, byTotalValueDesc, valuedKey. simpl.
    intros a b [H|(H1 & H2 & H3)]; [left; lra | right; split; [lra | exact H3]].
  - apply sort_ranks; [..|apply mapIndexed_earlier];
      unfold byTotalValueDesc; intros; lra.
Qed.

Lemma report_ranked (rows : list JSObject) :
  StronglySorted (fun a b => rankedBefore (analysisKey a) (analysisKey b))
    (rowAnalyses (performParetoAnalysis rows)).
Proof.
  apply (proj2 (StronglySorted_map analysisKey rankedBefore _)).
  simpl. rewrite analyzeRows_keys. apply rankedRows_sorted.
Qed.

Lemma analyzeRows_rowNumbers (grandTotal : Q) (l : list ValuedRow) (cv : Q) :
  map rowNumber (analyzeRows grandTotal cv l) = map vr_rowNumber l.
Proof.
  pose proof (f_equal (map snd) (analyzeRows_keys grandTotal l cv)) as H.
  now rewrite !map_map in H.
Qed.

Lemma report_rowNumbers (rows : list JSObject) :
  Permutation (map rowNumber (rowAnalyses (performParetoAnalysis rows)))
    (seq 1 (length rows)).
Proof.
  change (rowAnalyses (performParetoAnalysis rows))
    with (analyzeRows (sumTotalValue (rankedRows rows)) 0 (rankedRows rows)).
  rewrite analyzeRows_rowNumbers.
  change (seq 1 (length rows)) with (seq (0 + 1) (length rows)).
  rewrite <- (mapIndexed_rowNumbers rows 0).
  apply Permutation_map. symmetry. apply sort_perm.
Qed.

(** C7: the rows of the report are in descending order of weight, and the
    [rowNumber] of an entry is the 1-based position of its record in the
    input, whatever its rank: the input holds the entry's [data] at that
    position, and every position occurs exactly once. *)
Theorem C7_ranked_order (rows : list JSObject) :
  let l := rowAnalyses (performParetoAnalysis rows) in
  (forall i j a b, (i < j)%nat ->
     nth_error l i = Some a -> nth_error l j = Some b ->
     totalValue (metrics b) <= totalValue (metrics a))
  /\ (forall r, In r l ->
        (1 <= rowNumber r)%nat
        /\ nth_error rows (rowNumber r - 1) = Some (data r)
        /\ totalValue (metrics r)
             = vr_totalValue (valueRow (data r) (rowNumber r - 1)))
  /\ Permutation (map rowNumber l) (seq 1 (length rows)).
Proof.
  intros l. split; [|split].
  - intros i j a b Hij Ha Hb.
    pose proof (StronglySorted_nth _ _ (report_ranked rows) i j a b Hij Ha Hb)
      as [H|[H _]]; simpl in H; lra.
  - intros r Hr.
    destruct (report_row _ _ Hr) as (cv & k & row & Hk & ->).
    destruct (analyzeRow_spec (sumTotalValue (rankedRows rows)) cv
                (valueRow row k)) as (_ & -> & -> & -> & _).
    simpl. replace (k + 1 - 1)%nat with k by lia.
    repeat split; [lia | assumption].
  - apply report_rowNumbers.
Qed.

Lemma C7_ranked_order_witness :
  let l := rowAnalyses (performParetoAnalysis (parseCSV scenarioA)) in
  totalValue (metrics (nth 1 l noRow)) <= totalValue (metrics (nth 0 l noRow))
  /\ nth_error (parseCSV scenarioA) (rowNumber (nth 0 l noRow) - 1)
       = Some (data (nth 0 l noRow)).
Proof.
  intros l.
  destruct (C7_ranked_order (parseCSV scenarioA)) as (Hdesc & Hpos & _).
  split.
  - apply (Hdesc 0%nat 1%nat); [lia | reflexivity | reflexivity].
  - apply Hpos. vm_compute. left. reflexivity.
Defined.

(** C9: two rows of equal weight appear in the report in the order of the
    input: the one ranked first has the smaller [rowNumber]. *)
Theorem C9_stable_ties (rows : list JSObject) :
  let l := rowAnalyses (performParetoAnalysis rows) in
  forall i j a b, (i < j)%nat ->
    nth_error l i = Some a -> nth_error l j = Some b ->
    totalValue (metrics a) == totalValue (metrics b) ->
    (rowNumber a < rowNumber b)%nat.
Proof.
  intros l i j a b Hij Ha Hb Heq.
  pose proof (StronglySorted_nth _ _ (report_ranked rows) i j a b Hij Ha Hb)
    as [H|[_ H]]; simpl in H; [lra | exact H].
Qed.

Lemma C9_stable_ties_witness :
  let l := rowAnalyses (performParetoAnalysis (parseCSV scenarioTies)) in
  map rowNumber l = [2; 1; 3]%nat
  /\ (rowNumber (nth 1 l noRow) < rowNumber (nth 2 l noRow))%nat.
Proof.
  intros l. split; [reflexivity|].
  apply (C9_stable_ties (parseCSV scenarioTies) 1%nat 2%nat);
    [lia | reflexivity | reflexivity | vm_compute; reflexivity].
Defined.

(** ** Recommendations *)

Lemma generateRecommendations_tier (row : ValuedRow) (cls : string)
    (share cum : Q) :
  generateRecommendations row cls share cum
    = (tierMessages cls share (vr_totalValue row)
         ++ (if Qle_bool cum 20 then [TOP20] else []))%list.
Proof.
  unfold generateRecommendations, tierMessages, push.
  destruct (String.eqb cls ALTA); [|destruct (String.eqb cls MEDIA)];
    try destruct (Qltb 0 (vr_totalValue row));
    destruct (Qle_bool cum 20); reflexivity.
Qed.

Lemma tierMessages_no_marker (cls : string) (share weight : Q) :
  ~ In TOP20 (tierMessages cls share weight).
Proof.
  unfold tierMessages.
  destruct (String.eqb cls ALTA); [|destruct (String.eqb cls MEDIA)];
    try destruct (Qltb 0 weight); simpl; intros H;
    repeat (destruct H as [H|H]; [discriminate H|]); contradiction.
Qed.

(** C8: whatever the class, the recommendations are the messages of the
    class in their fixed order, followed by the "Top 20%" marker exactly when
    the cumulative percentage is at most 20; the marker is none of the
    messages of a class, and every row of a report carries the
    recommendations of its own class, contribution, weight and cumulative
    percentage. *)
Theorem C8_recommendations :
  (forall row cls share cum,
     let tier := tierMessages cls share (vr_totalValue row) in
     ~ In TOP20 tier
     /\ (cum <= 20 ->
         generateRecommendations row cls share cum = (tier ++ [TOP20])%list)
     /\ (20 < cum -> generateRecommendations row cls share cum = tier)
     /\ (In TOP20 (generateRecommendations row cls share cum) <-> cum <= 20))
  /\ (forall rows r, In r (rowAnalyses (performParetoAnalysis rows)) ->
        recommendations r
          = (tierMessages (classification r) (contributionOf r)
               (totalValue (metrics r))
             ++ (if Qle_bool (cumulativeOf r) 20 then [TOP20] else []))%list).
Proof.
  split.
  - intros row cls share cum tier.
    pose proof (tierMessages_no_marker cls share (vr_totalValue row)) as Hno.
    fold tier in Hno. rewrite generateRecommendations_tier. fold tier.
    split; [exact Hno|].
    destruct (Qle_bool cum 20) eqn:E.
    + apply Qle_bool_iff in E. repeat split; try tauto.
      * intros H. lra.
      * intros _. apply in_or_app. right. now left.
    + apply Qle_bool_gt in E. rewrite app_nil_r. repeat split; try tauto.
      * intros H. lra.
      * intros H. lra.
  - intros rows r Hr.
    destruct (report_row _ _ Hr) as (cv & k & row & _ & ->).
    destruct (analyzeRow_spec (sumTotalValue (rankedRows rows)) cv
                (valueRow row k)) as (_ & _ & _ & Hw & _ & _ & _ & ->).
    rewrite generateRecommendations_tier. unfold contributionOf, cumulativeOf.
    now rewrite Hw.
Qed.

Lemma C8_recommendations_witness :
  generateRecommendations (mkValuedRow 1 [] 5 []) MEDIA 10 15
  = ["Contribuye con 10.0% del valor total";
     "Mantener seguimiento regular y considerar para optimización secundaria";
     "Evaluar si puede mejorarse para entrar en el grupo de alta prioridad";
     "⭐ Top 20%: Este elemento es de los más valiosos del conjunto"].
Proof.
  apply (proj1 (proj2 (proj1 C8_recommendations (mkValuedRow 1 [] 5 []) MEDIA 10 15))).
  vm_compute. discriminate.
Defined.

(** ** The address of the CSV export *)

Lemma takeIdChars_app (sheetId rest : string) :
  allIdChars sheetId = true -> startsWithIdChar rest = false ->
  takeIdChars (sheetId ++ rest) = sheetId.
Proof.
  unfold allIdChars. intros Hid Hrest.
  induction sheetId as [|c s IH];
    cbn [append takeIdChars list_ascii_of_string forallb] in *.
  - destruct rest as [|c r]; [reflexivity|].
    cbn [startsWithIdChar takeIdChars] in *. now rewrite Hrest.
  - apply andb_true_iff in Hid as [Hc Hs]. rewrite Hc. now rewrite IH.
Qed.

Lemma takeIdChars_all (s : string) : allIdChars (takeIdChars s) = true.
Proof.
  unfold allIdChars. induction s as [|c s IH]; [reflexivity|].
  cbn [takeIdChars]. destruct (isIdChar c) eqn:E; [|reflexivity].
  cbn [list_ascii_of_string forallb]. now rewrite E.
Qed.

Lemma matchSheetId_Some (s sheetId : string) :
  matchSheetId s = Some sheetId ->
  Str.truthy sheetId = true /\ allIdChars sheetId = true.
Proof.
  induction s as [|c s IH]; simpl; [discriminate|].
  assert (Hstep : forall rest,
            (if Str.truthy (takeIdChars rest) then Some (takeIdChars rest)
             else matchSheetId s) = Some sheetId ->
            Str.truthy sheetId = true /\ allIdChars sheetId = true).
  { intros rest. destruct (Str.truthy (takeIdChars rest)) eqn:E; [|exact IH].
    intros H. injection H as <-. split; [exact E | apply takeIdChars_all]. }
  destruct c as [[] [] [] [] [] [] [] []]; try exact IH.
  destruct s as [|[[] [] [] [] [] [] [] []] s']; try exact IH.
  destruct s' as [|[[] [] [] [] [] [] [] []] rest]; try exact IH.
  apply Hstep.
Qed.

Lemma toCsvUrl_export (sheetId rest : string) :
  sheetId <> "" -> allIdChars sheetId = true -> startsWithIdChar rest = false ->
  toCsvUrl ("https://docs.google.com/spreadsheets/d/" ++ sheetId ++ rest)
    = exportUrl sheetId.
Proof.
  intros Hne Hid Hrest.
  assert (Ht : Str.truthy sheetId = true) by (now destruct sheetId).
  unfold toCsvUrl.
  replace (includes "docs.google.com/spreadsheets"
             ("https://docs.google.com/spreadsheets/d/" ++ sheetId ++ rest))
    with true by reflexivity.
  replace (matchSheetId
             ("https://docs.google.com/spreadsheets/d/" ++ sheetId ++ rest))
    with (if Str.truthy (takeIdChars (sheetId ++ rest))
          then Some (takeIdChars (sheetId ++ rest))
          else matchSheetId ("d/" ++ sheetId ++ rest)) by reflexivity.
  rewrite (takeIdChars_app _ _ Hid Hrest), Ht. rewrite Ht. reflexivity.
Qed.

(** X1: an address that starts with
    [https://docs.google.com/spreadsheets/d/], goes on with a non-empty run
    of letters, digits, [-] and [_] and then stops or meets any other
    character (as in [.../d/ID/edit#gid=0]) is rewritten to the CSV export
    address of that ID. *)
Theorem X1_sheet_link_to_export (sheetId rest : string) :
  sheetId <> "" -> allIdChars sheetId = true -> startsWithIdChar rest = false ->
  toCsvUrl ("https://docs.google.com/spreadsheets/d/" ++ sheetId ++ rest)
    = "https://docs.google.com/spreadsheets/d/" ++ sheetId
        ++ "/export?format=csv".
Proof. exact (toCsvUrl_export sheetId rest). Qed.

Lemma X1_sheet_link_to_export_witness :
  toCsvUrl "https://docs.google.com/spreadsheets/d/1AbC-_9/edit#gid=0"
  = "https://docs.google.com/spreadsheets/d/1AbC-_9/export?format=csv".
Proof.
  apply (X1_sheet_link_to_export "1AbC-_9" "/edit#gid=0");
    [discriminate | reflexivity | reflexivity].
Defined.

(** X2: rewriting an address twice is rewriting it once: the address the
    handler fetches is left alone when it is submitted again, and an export
    address is its own rewriting. *)
Theorem X2_toCsvUrl_idempotent (sheetUrl : string) :
  toCsvUrl (toCsvUrl sheetUrl) = toCsvUrl sheetUrl.
Proof.
  unfold toCsvUrl at 2 3.
  destruct (includes "docs.google.com/spreadsheets" sheetUrl) eqn:Hinc.
  - destruct (matchSheetId sheetUrl) as [sheetId|] eqn:Hm.
    + destruct (matchSheetId_Some _ _ Hm) as [Ht Hid]. rewrite Ht.
      apply (toCsvUrl_export sheetId "/export?format=csv");
        [now destruct sheetId | assumption | reflexivity].
    + unfold toCsvUrl. now rewrite Hinc, Hm.
  - unfold toCsvUrl. now rewrite Hinc.
Qed.

(** ** The handler *)


Lemma POST_fetching (c : ascii) (u : string) (fetch : string -> FetchOutcome) :
  POST (JsonBody (Some (String c u))) fetch
    = ([toCsvUrl (String c u)], answer (fetch (toCsvUrl (String c u)))).
Proof. reflexivity. Qed.

Lemma answer_ok (csvText : string) :
  parseCSV csvText <> [] ->
  answer (Responds true csvText)
    = {| status := 200;
         body := AnalysisBody (performParetoAnalysis (parseCSV csvText)) |}.
Proof.
  intros H. unfold answer, analyzeText. cbn [negb].
  destruct (parseCSV csvText); [now elim H | reflexivity].
Qed.

Lemma answer_failed (outcome : FetchOutcome) :
  (forall csvText, outcome = Responds true csvText -> parseCSV csvText = []) ->
  exists message, answer outcome = caught message.
Proof.
  intros H. destruct outcome as [message|[] csvText]; unfold answer; cbn [negb].
  - now exists message.
  - unfold analyzeText. rewrite (H csvText eq_refl). now exists EMPTY_SHEET.
  - now exists NOT_ACCESSIBLE.
Qed.

Lemma answer_cases (outcome : FetchOutcome) :
  (exists csvText, outcome = Responds true csvText /\ parseCSV csvText <> []
     /\ answer outcome
        = {| status := 200;
             body := AnalysisBody (performParetoAnalysis (parseCSV csvText)) |})
  \/ ((forall csvText, outcome = Responds true csvText -> parseCSV csvText = [])
      /\ exists message, answer outcome = caught message).
Proof.
  destruct outcome as [message|[] csvText].
  - right. split; [discriminate | now apply answer_failed].
  - destruct (parseCSV csvText) as [|row rows] eqn:E.
    + right. assert (H : forall t, Responds true csvText = Responds true t ->
                                   parseCSV t = [])
        by (intros t Ht; injection Ht as <-; exact E).
      split; [exact H | now apply answer_failed].
    + left. exists csvText. split; [reflexivity|].
      assert (Hne : parseCSV csvText <> []) by (rewrite E; discriminate).
      split; [exact Hne | now apply answer_ok].
  - right. split; [discriminate | now apply answer_failed].
Qed.



(** X4: the handler gives [fetch] at most one address and none when it
    answers 400 or cannot read the request; the address is the rewriting of
    the requested one: the address itself when it does not mention
    [docs.google.com/spreadsheets], the CSV export address for a Google
    Sheets link. *)
Theorem X4_POST_fetches (request : JsonRequest) (fetch : string -> FetchOutcome) :
  let fetched := fst (POST request fetch) in
  (length fetched <= 1)%nat
  /\ (status (snd (POST request fetch)) = 400%nat -> fetched = [])
  /\ (forall message, request = InvalidJson message -> fetched = [])
  /\ (forall sheetUrl, request = JsonBody (Some sheetUrl) -> sheetUrl <> "" ->
        fetched = [toCsvUrl sheetUrl])
  /\ (forall sheetUrl, request = JsonBody (Some sheetUrl) -> sheetUrl <> "" ->
        includes "docs.google.com/spreadsheets" sheetUrl = false ->
        fetched = [sheetUrl])
  /\ (forall sheetId rest,
        request = JsonBody (Some ("https://docs.google.com/spreadsheets/d/"
                                    ++ sheetId ++ rest)) ->
        sheetId <> "" -> allIdChars sheetId = true ->
        startsWithIdChar rest = false ->
        fetched = ["https://docs.google.com/spreadsheets/d/" ++ sheetId
                     ++ "/export?format=csv"]).
Proof.
  assert (Hsome : forall sheetUrl, sheetUrl <> "" ->
            fst (POST (JsonBody (Some sheetUrl)) fetch) = [toCsvUrl sheetUrl]).
  { intros [|c u] H; [now elim H | now rewrite POST_fetching]. }
  cbn zeta. split; [|split; [|split; [|split; [|split]]]].
  - destruct request as [message|[[|c u]|]]; cbn; lia.
  - destruct request as [message|[[|c u]|]]; try reflexivity.
    rewrite POST_fetching. cbn [snd fst]. intros H.
    destruct (answer_cases (fetch (toCsvUrl (String c u))))
      as [(t & _ & _ & E) | (_ & message & E)]; rewrite E in H; discriminate.
  - intros message ->. reflexivity.
  - intros sheetUrl -> H. now apply Hsome.
  - intros sheetUrl -> H Hinc. rewrite (Hsome _ H). unfold toCsvUrl.
    now rewrite Hinc.
  - intros sheetId rest -> Hne Hid Hrest. rewrite Hsome.
    + now rewrite toCsvUrl_export.
    + discriminate.
Qed.

Lemma X4_POST_fetches_witness :
  fst (POST (JsonBody (Some "https://docs.google.com/spreadsheets/d/1AbC-_9/edit#gid=0"))
         (fun _ => Rejects "fetch failed"))
  = ["https://docs.google.com/spreadsheets/d/1AbC-_9/export?format=csv"].
Proof.
  apply (proj2 (proj2 (proj2 (proj2 (proj2 (X4_POST_fetches
           (JsonBody (Some "https://docs.google.com/spreadsheets/d/1AbC-_9/edit#gid=0"))
           (fun _ => Rejects "fetch failed"))))))
         "1AbC-_9" "/edit#gid=0");
    [reflexivity | discriminate | reflexivity | reflexivity].
Defined.

(** ** The page *)



(** ** Rows of a report, by position *)

Lemma shareOf_plus (grandTotal x y : Q) :
  shareOf grandTotal (x + y) == shareOf grandTotal x + shareOf grandTotal y.
Proof.
  unfold shareOf. destruct (Qltb 0 grandTotal) eqn:E; [|ring].
  apply Qltb_lt in E. field. lra.
Qed.

Lemma shareOf_0 (grandTotal : Q) : shareOf grandTotal 0 == 0.
Proof.
  pose proof (shareOf_plus grandTotal 0 0) as H.
  rewrite (shareOf_compat grandTotal (0 + 0) 0) in H by ring. lra.
Qed.

Lemma analyzeRow_shares (grandTotal cv : Q) (v : ValuedRow) :
  contributionOf (snd (analyzeRow grandTotal cv v))
    = shareOf grandTotal (vr_totalValue v)
  /\ cumulativeOf (snd (analyzeRow grandTotal cv v))
     = shareOf grandTotal (cv + vr_totalValue v).
Proof.
  destruct (analyzeRow_spec grandTotal cv v) as (_ & _ & _ & _ & H1 & H2 & _).
  split; assumption.
Qed.

(** The cumulative percentage of a row is that of the rows before the pass
    started plus the contributions up to and including the row. *)
Lemma cumulative_running (grandTotal : Q) (l : list ValuedRow) :
  forall cv i r, nth_error (analyzeRows grandTotal cv l) i = Some r ->
    cumulativeOf r
      == shareOf grandTotal cv
         + Qsum (map contributionOf
                   (firstn (S i) (analyzeRows grandTotal cv l))).
Proof.
  induction l as [|v l IH]; intros cv i r H.
  - now destruct i.
  - rewrite analyzeRows_cons in H |- *.
    destruct (analyzeRow_shares grandTotal cv v) as [Hc Hcum].
    destruct i as [|i]; simpl in H.
    + injection H as <-. rewrite Hcum. cbn [firstn map Qsum fold_right].
      rewrite Hc, shareOf_plus. ring.
    + rewrite (IH _ _ _ H). rewrite firstn_cons.
      cbn [map Qsum fold_right]. fold (Qsum (map contributionOf
        (firstn (S i) (analyzeRows grandTotal (cv + vr_totalValue v) l)))).
      rewrite Hc, shareOf_plus. ring.
Qed.

Lemma report_unfold (rows : list JSObject) :
  rowAnalyses (performParetoAnalysis rows)
    = analyzeRows (sumTotalValue (rankedRows rows)) 0 (rankedRows rows).
Proof. reflexivity. Qed.

Lemma report_total_nonneg (rows : list JSObject) :
  0 <= sumTotalValue (rankedRows rows).
Proof.
  rewrite sumTotalValue_Qsum. apply Qsum_nonneg. rewrite Forall_map.
  apply rankedRows_nonneg.
Qed.

Lemma report_cumulative_sorted (rows : list JSObject) :
  StronglySorted (fun a b => cumulativeOf a <= cumulativeOf b)
    (rowAnalyses (performParetoAnalysis rows)).
Proof. apply cumulative_sorted, rankedRows_nonneg. Qed.

Lemma report_last_cumulative (rows : list JSObject) (init : list RowAnalysis)
    (z : RowAnalysis) :
  rowAnalyses (performParetoAnalysis rows) = (init ++ [z])%list ->
  cumulativeOf z == shareOf (sumTotalValue (rankedRows rows))
                      (sumTotalValue (rankedRows rows)).
Proof.
  intros H. rewrite report_unfold in H. rewrite (cumulative_last _ _ _ _ _ H).
  apply shareOf_compat. rewrite sumTotalValue_Qsum. ring.
Qed.

Lemma report_class (rows : list JSObject) (r : RowAnalysis) :
  In r (rowAnalyses (performParetoAnalysis rows)) ->
  classification r = fst (classify (contributionOf r) (cumulativeOf r))
  /\ paretoScore r = snd (classify (contributionOf r) (cumulativeOf r)).
Proof.
  intros H. destruct (report_row _ _ H) as (cv & k & row & _ & ->).
  destruct (analyzeRow_spec (sumTotalValue (rankedRows rows)) cv (valueRow row k))
    as (_ & _ & _ & _ & _ & _ & E & _).
  unfold contributionOf, cumulativeOf. now rewrite <- E.
Qed.

Lemma report_class_iff (rows : list JSObject) (r : RowAnalysis) :
  In r (rowAnalyses (performParetoAnalysis rows)) ->
  (classification r = ALTA <-> cumulativeOf r <= 80)
  /\ (classification r = MEDIA <-> 80 < cumulativeOf r /\ cumulativeOf r <= 95)
  /\ (classification r = BAJA <-> 95 < cumulativeOf r).
Proof.
  intros H. destruct (report_class _ _ H) as [-> _]. unfold classify.
  destruct (Qle_bool (cumulativeOf r) 80) eqn:E1.
  - apply Qle_bool_iff in E1. cbn [fst].
    repeat split; try discriminate; try assumption; intros; lra.
  - apply Qle_bool_gt in E1.
    destruct (Qle_bool (cumulativeOf r) 95) eqn:E2; cbn [fst].
    + apply Qle_bool_iff in E2.
      repeat split; try discriminate; try assumption; intros; lra.
    + apply Qle_bool_gt in E2.
      repeat split; try discriminate; try assumption; intros; lra.
Qed.

(** ** Shape of a report *)

(** X6: along the ranking the classes come in blocks, "Alta Prioridad" first,
    then "Media Prioridad", then "Baja Prioridad": a row ranked before an
    "Alta" row is "Alta", a row ranked after a "Baja" row is "Baja", and no
    "Alta" row comes after a "Media" row. *)
Theorem X6_tiers_in_order (rows : list JSObject) (i j : nat) (a b : RowAnalysis) :
  (i < j)%nat ->
  nth_error (rowAnalyses (performParetoAnalysis rows)) i = Some a ->
  nth_error (rowAnalyses (performParetoAnalysis rows)) j = Some b ->
  (classification b = "Alta Prioridad" -> classification a = "Alta Prioridad")
  /\ (classification a = "Baja Prioridad" -> classification b = "Baja Prioridad")
  /\ (classification a = "Media Prioridad" ->
      classification b <> "Alta Prioridad").
Proof.
  intros Hij Ha Hb.
  pose proof (nth_error_In _ _ Ha) as Ia. pose proof (nth_error_In _ _ Hb) as Ib.
  pose proof (StronglySorted_nth _ _ (report_cumulative_sorted rows)
                i j a b Hij Ha Hb) as Hcum.
  cbv beta in Hcum.
  destruct (report_class_iff _ _ Ia) as (Aa & Ma & Ba).
  destruct (report_class_iff _ _ Ib) as (Ab & Mb & Bb).
  split; [|split].
  - intros H. apply Aa. apply Ab in H. lra.
  - intros H. apply Bb. apply Ba in H. lra.
  - intros H H'. apply Ma in H. apply Ab in H'. lra.
Qed.

Lemma X6_tiers_in_order_witness :
  let l := rowAnalyses (performParetoAnalysis (parseCSV scenarioA)) in
  classification (nth 1 l noRow) <> "Alta Prioridad".
Proof.
  intros l.
  destruct (X6_tiers_in_order (parseCSV scenarioA) 0 1
              (nth 0 l noRow) (nth 1 l noRow)) as (_ & _ & H);
    [lia | reflexivity | reflexivity |].
  apply H. vm_compute. reflexivity.
Defined.

(** ** Extreme totals *)

Lemma countClass_pos (c : string) (l : list RowAnalysis) (z : RowAnalysis) :
  In z l -> classification z = c -> (1 <= countClass c l)%nat.
Proof.
  unfold countClass. intros Hin Hc.
  assert (H : In z (filter (fun r => String.eqb (classification r) c) l)).
  { apply filter_In. split; [assumption|]. rewrite Hc. apply String.eqb_refl. }
  destruct (filter _ l); [contradiction | simpl; lia].
Qed.

Lemma zero_total_rows (grandTotal : Q) (l : list ValuedRow) (cv : Q) :
  grandTotal <= 0 ->
  Forall (fun r => contributionOf r = 0 /\ cumulativeOf r = 0
                   /\ classification r = ALTA /\ paretoScore r == 30)
    (analyzeRows grandTotal cv l).
Proof.
  intros HG. rewrite Forall_forall. intros r Hr.
  destruct (analyzeRows_In _ _ _ _ Hr) as (cv' & v & _ & ->).
  destruct (analyzeRow_spec grandTotal cv' v) as (_ & _ & _ & _ & Hc & Hcum & E & _).
  unfold contributionOf, cumulativeOf.
  rewrite shareOf_zero in Hc, Hcum by assumption. rewrite Hc, Hcum in *.
  unfold classify in E. simpl in E. injection E as -> ->.
  repeat split; reflexivity.
Qed.

(** X7: the total is never negative.  When it is positive the last row of
    the report is "Baja Prioridad" (its cumulative percentage is 100), so at
    least one row is low priority and not every row is high priority: a
    sheet with a single row of positive weight rates that row "Baja
    Prioridad".  When the total is 0 every row is "Alta Prioridad" with
    score 30 and no row is low priority. *)
Theorem X7_extreme_totals (rows : list JSObject) :
  let res := performParetoAnalysis rows in
  let grandTotal := summaryTotalValue (summary res) in
  0 <= grandTotal
  /\ (0 < grandTotal ->
      (forall init z, rowAnalyses res = (init ++ [z])%list ->
                      classification z = "Baja Prioridad")
      /\ (1 <= lowPriority (summary res))%nat
      /\ (highPriority (summary res) < totalRows (summary res))%nat)
  /\ (grandTotal == 0 ->
      (forall r, In r (rowAnalyses res) ->
                 classification r = "Alta Prioridad" /\ paretoScore r == 30)
      /\ highPriority (summary res) = totalRows (summary res)
      /\ lowPriority (summary res) = 0%nat).
Proof.
  cbn zeta. change (summaryTotalValue (summary (performParetoAnalysis rows)))
    with (sumTotalValue (rankedRows rows)).
  split; [apply report_total_nonneg|]. split.
  - intros HG.
    assert (Hlast : forall init z,
              rowAnalyses (performParetoAnalysis rows) = (init ++ [z])%list ->
              classification z = BAJA).
    { intros init z E.
      assert (Hz : In z (rowAnalyses (performParetoAnalysis rows)))
        by (rewrite E; apply in_or_app; right; now left).
      apply (report_class_iff _ _ Hz).
      rewrite (report_last_cumulative rows init z E).
      rewrite shareOf_total; [lra | reflexivity | assumption]. }
    split; [exact Hlast|].
    assert (Hlow : (1 <= lowPriority (summary (performParetoAnalysis rows)))%nat).
    { destruct (rowAnalyses (performParetoAnalysis rows)) as [|r0 l] eqn:E.
      - exfalso. rewrite report_unfold in E.
        apply (f_equal (@length _)) in E.
        rewrite analyzeRows_length in E. apply length_zero_iff_nil in E.
        unfold sumTotalValue in HG. rewrite E in HG. simpl in HG. lra.
      - destruct (@exists_last _ (r0 :: l)) as (init & z & Ez); [discriminate|].
        change (lowPriority (summary (performParetoAnalysis rows)))
          with (countClass BAJA (rowAnalyses (performParetoAnalysis rows))).
        rewrite E. apply (countClass_pos BAJA _ z).
        + rewrite Ez. apply in_or_app. right. now left.
        + apply (Hlast init). now rewrite <- Ez. }
    split; [exact Hlow|].
    pose proof (countClass_partition _ (report_classes rows)) as Hp.
    change (countClass BAJA (rowAnalyses (performParetoAnalysis rows)))
      with (lowPriority (summary (performParetoAnalysis rows))) in Hp.
    change (countClass ALTA (rowAnalyses (performParetoAnalysis rows)))
      with (highPriority (summary (performParetoAnalysis rows))) in Hp.
    change (totalRows (summary (performParetoAnalysis rows)))
      with (length (rowAnalyses (performParetoAnalysis rows))).
    lia.
  - intros HG.
    assert (Hle : sumTotalValue (rankedRows rows) <= 0) by lra.
    pose proof (zero_total_rows _ (rankedRows rows) 0 Hle) as Hall.
    rewrite <- report_unfold in Hall.
    assert (Hcls : Forall (fun r => classification r = ALTA)
                     (rowAnalyses (performParetoAnalysis rows)))
      by (eapply Forall_impl; [|exact Hall]; simpl; tauto).
    split; [|split].
    + intros r Hr. rewrite Forall_forall in Hall.
      destruct (Hall r Hr) as (_ & _ & H1 & H2). now split.
    + exact (countClass_all _ _ Hcls).
    + apply (countClass_none ALTA); [discriminate | exact Hcls].
Qed.

Lemma X7_extreme_totals_witness :
  (1 <= lowPriority (summary (performParetoAnalysis (parseCSV scenarioC))))%nat
  /\ highPriority (summary (performParetoAnalysis (parseCSV scenarioNoNumbers)))
     = totalRows (summary (performParetoAnalysis (parseCSV scenarioNoNumbers))).
Proof.
  split.
  - apply (proj1 (proj2 (X7_extreme_totals (parseCSV scenarioC)))).
    vm_compute. reflexivity.
  - apply (proj2 (proj2 (X7_extreme_totals (parseCSV scenarioNoNumbers)))).
    vm_compute. reflexivity.
Defined.

(** ** Filters *)

Lemma filter_none {A : Type} (p : A -> bool) (l : list A) :
  Forall (fun x => p x = false) l -> filter p l = [].
Proof.
  induction 1 as [|x l Hx _ IH]; simpl; [reflexivity|]. now rewrite Hx.
Qed.

(** ** What the page shows *)

Lemma report_recommendations (rows : list JSObject) (r : RowAnalysis) :
  In r (rowAnalyses (performParetoAnalysis rows)) ->
  recommendations r
    = (tierMessages (classification r) (contributionOf r)
         (totalValue (metrics r))
       ++ (if Qle_bool (cumulativeOf r) 20 then [TOP20] else []))%list.
Proof.
  intros Hr. destruct (report_row _ _ Hr) as (cv & k & row & _ & ->).
  destruct (analyzeRow_spec (sumTotalValue (rankedRows rows)) cv
              (valueRow row k)) as (_ & _ & _ & Hw & _ & _ & _ & ->).
  rewrite generateRecommendations_tier. unfold contributionOf, cumulativeOf.
  now rewrite Hw.
Qed.

Lemma tierMessages_length (cls : string) (share weight : Q) :
  length (tierMessages cls share weight)
  = (3 + (if String.eqb cls ALTA && Qltb 0 weight then 1 else 0))%nat.
Proof.
  unfold tierMessages.
  destruct (String.eqb cls ALTA); [|destruct (String.eqb cls MEDIA)];
    try destruct (Qltb 0 weight); reflexivity.
Qed.

(** X8: every row of a report carries between 3 and 5 recommendations, so
    the list the page tests with [length > 0] is never empty; a row that is
    not "Alta Prioridad" carries exactly 3; the "Top 20%" marker only
    appears on "Alta Prioridad" rows; and a row carries 5 exactly when its
    weight is positive and its cumulative percentage is at most 20. *)
Theorem X8_recommendation_count (rows : list JSObject) (r : RowAnalysis) :
  In r (rowAnalyses (performParetoAnalysis rows)) ->
  (3 <= length (recommendations r) <= 5)%nat
  /\ (classification r <> "Alta Prioridad" ->
      length (recommendations r) = 3%nat)
  /\ (In TOP20 (recommendations r) -> classification r = "Alta Prioridad")
  /\ (length (recommendations r) = 5%nat
      <-> 0 < totalValue (metrics r) /\ cumulativeOf r <= 20).
Proof.
  intros Hr. rewrite (report_recommendations _ _ Hr).
  destruct (report_class_iff _ _ Hr) as (HA & _ & _).
  pose proof (tierMessages_no_marker (classification r) (contributionOf r)
                (totalValue (metrics r))) as Hno.
  change "Alta Prioridad" with ALTA.
  rewrite length_app, tierMessages_length.
  assert (Hmark : Qle_bool (cumulativeOf r) 20 = true ->
                  classification r = ALTA).
  { intros H. apply Qle_bool_iff in H. apply HA. lra. }
  destruct (String.eqb (classification r) ALTA) eqn:Ecls.
  - apply String.eqb_eq in Ecls.
    destruct (Qltb 0 (totalValue (metrics r))) eqn:Ew;
      destruct (Qle_bool (cumulativeOf r) 20) eqn:Ec; cbn [andb length Nat.add];
      rewrite ?Qltb_lt, ?Qltb_ge, ?Qle_bool_iff, ?Qle_bool_gt in *;
      (split; [lia|]); (split; [intros H; now elim H|]);
      (split; [intros _; exact Ecls|]);
      (split; [intros H; try discriminate H; split; assumption
              | intros [H1 H2]; try reflexivity; lra]).
  - apply String.eqb_neq in Ecls.
    destruct (Qle_bool (cumulativeOf r) 20) eqn:Ec;
      [now elim Ecls; apply Hmark|].
    cbn [andb length Nat.add]. rewrite app_nil_r.
    split; [lia|]. split; [reflexivity|].
    split; [intros H; contradiction|].
    split; [discriminate|]. intros [_ H]. apply Qle_bool_gt in Ec. lra.
Qed.

Lemma X8_recommendation_count_witness :
  length (recommendations
            (nth 0 (rowAnalyses (performParetoAnalysis (parseCSV scenarioA)))
               noRow)) = 3%nat.
Proof.
  apply X8_recommendation_count with (rows := parseCSV scenarioA).
  - vm_compute. left. reflexivity.
  - vm_compute. discriminate.
Defined.

Lemma mapIndexed_data (rows : list JSObject) : forall i,
  map vr_data (mapIndexed valueRow i rows) = rows.
Proof.
  induction rows as [|row rows IH]; intros i; simpl; [reflexivity|].
  now rewrite IH.
Qed.

(** X9: a report holds exactly the records it was given, each once (the
    [data] fields are a rearrangement of the input), and no two of its
    entries share a [rowNumber], which the page uses as the key of the
    entry; every [rowNumber] lies between 1 and the number of records. *)
Theorem X9_records_kept (rows : list JSObject) :
  let l := rowAnalyses (performParetoAnalysis rows) in
  Permutation (map data l) rows
  /\ NoDup (map rowNumber l)
  /\ (forall r, In r l -> (1 <= rowNumber r <= length rows)%nat).
Proof.
  cbn zeta. split; [|split].
  - rewrite report_unfold, analyzeRows_data.
    rewrite <- (mapIndexed_data rows 0) at 2.
    apply Permutation_map. symmetry. apply sort_perm.
  - apply (Permutation_NoDup (l := seq 1 (length rows)));
      [symmetry; apply report_rowNumbers | apply seq_NoDup].
  - intros r Hr.
    assert (H : In (rowNumber r) (seq 1 (length rows))).
    { eapply Permutation_in; [apply report_rowNumbers|]. now apply in_map. }
    apply in_seq in H. lia.
Qed.

Lemma X9_records_kept_witness :
  (1 <= rowNumber (nth 0 (rowAnalyses (performParetoAnalysis (parseCSV scenarioA)))
                     noRow) <= 2)%nat.
Proof.
  apply (proj2 (proj2 (X9_records_kept (parseCSV scenarioA)))).
  vm_compute. left. reflexivity.
Defined.

(** X10: the badge of a row follows its cumulative percentage: [score-high]
    exactly when it is at most 80, [score-medium] exactly when it is at most
    95 and not at most 80, [score-low] exactly when it is not at most 95;
    the fall-back branch of [getScoreClass] is never taken on a report. *)
Theorem X10_badge (rows : list JSObject) (r : RowAnalysis) :
  In r (rowAnalyses (performParetoAnalysis rows)) ->
  (getScoreClass (classification r) = "score-high" <-> cumulativeOf r <= 80)
  /\ (getScoreClass (classification r) = "score-medium"
      <-> ~ cumulativeOf r <= 80 /\ cumulativeOf r <= 95)
  /\ (getScoreClass (classification r) = "score-low"
      <-> ~ cumulativeOf r <= 95)
  /\ (classification r = "Alta Prioridad"
      \/ classification r = "Media Prioridad"
      \/ classification r = "Baja Prioridad").
Proof.
  intros Hr. destruct (report_class_iff _ _ Hr) as (HA & HM0 & HB0).
  assert (HM : classification r = MEDIA
               <-> ~ cumulativeOf r <= 80 /\ cumulativeOf r <= 95).
  { rewrite HM0. split; intros [H1 H2]; (split; [|exact H2]); lra. }
  assert (HB : classification r = BAJA <-> ~ cumulativeOf r <= 95).
  { rewrite HB0. split; intros H; lra. }
  clear HM0 HB0.
  assert (Hcls : classification r = ALTA \/ classification r = MEDIA
                 \/ classification r = BAJA).
  { pose proof (report_classes rows) as H. rewrite Forall_forall in H.
    now apply H. }
  split; [|split; [|split; [|exact Hcls]]];
    destruct Hcls as [E|[E|E]]; rewrite E in *; cbn;
    (split; [intros H; try discriminate H;
             first [now apply HA | now apply HM | now apply HB]
            | intros H; try reflexivity;
              first [apply HA in H | apply HM in H | apply HB in H];
              discriminate H]).
Qed.

Lemma X10_badge_witness :
  getScoreClass
    (classification
       (nth 0 (rowAnalyses (performParetoAnalysis (parseCSV scenarioA))) noRow))
  = "score-medium".
Proof.
  apply X10_badge with (rows := parseCSV scenarioA).
  - vm_compute. left. reflexivity.
  - split; vm_compute; [intros H; apply H; reflexivity | discriminate].
Defined.

(** ** Lines and cells *)

Lemma split_not_nil (sep : ascii) (s : string) : Str.split sep s <> [].
Proof.
  destruct s as [|c s]; simpl; [discriminate|].
  destruct (Ascii.eqb c sep); [discriminate|].
  destruct (Str.split sep s); discriminate.
Qed.

Lemma split_app_sep (sep : ascii) (a b : string) :
  Str.split sep (a ++ String sep b)
    = (Str.split sep a ++ Str.split sep b)%list.
Proof.
  induction a as [|c a IH]; simpl.
  - now rewrite Ascii.eqb_refl.
  - destruct (Ascii.eqb c sep); [now rewrite IH|].
    rewrite IH. pose proof (split_not_nil sep a).
    destruct (Str.split sep a); [contradiction | reflexivity].
Qed.

Lemma nonBlankLines_app (a b : string) :
  nonBlankLines (a ++ newline ++ b)
    = (nonBlankLines a ++ nonBlankLines b)%list.
Proof.
  unfold nonBlankLines, newline. cbn [append].
  now rewrite split_app_sep, filter_app.
Qed.

Lemma parseCSV_recordsOf (csvText first : string) (rest : list string) :
  nonBlankLines csvText = first :: rest -> parseCSV csvText = recordsOf first rest.
Proof. intros H. unfold parseCSV. now rewrite H. Qed.

(** X11: records are read line by line under the first non-blank line: text
    appended after a line break adds the records of its non-blank lines and
    leaves the earlier records alone; in particular blank lines and a line
    break at the end change nothing. *)
Theorem X11_lines_append (csvText more first : string) (rest : list string) :
  nonBlankLines csvText = first :: rest ->
  parseCSV (csvText ++ newline ++ more)
    = (parseCSV csvText ++ recordsOf first (nonBlankLines more))%list
  /\ (nonBlankLines more = [] ->
      parseCSV (csvText ++ newline ++ more) = parseCSV csvText)
  /\ parseCSV (csvText ++ newline) = parseCSV csvText.
Proof.
  intros H.
  assert (E : forall m, parseCSV (csvText ++ newline ++ m)
                        = (parseCSV csvText ++ recordsOf first (nonBlankLines m))%list).
  { intros m. rewrite (parseCSV_recordsOf csvText first rest H).
    rewrite (parseCSV_recordsOf (csvText ++ newline ++ m) first
               (rest ++ nonBlankLines m)).
    - unfold recordsOf. now rewrite map_app.
    - now rewrite nonBlankLines_app, H. }
  split; [apply E|]. split.
  - intros Hm. rewrite E, Hm. apply app_nil_r.
  - replace (csvText ++ newline) with (csvText ++ newline ++ "").
    + rewrite E. apply app_nil_r.
    + reflexivity.
Qed.

Lemma X11_lines_append_witness :
  parseCSV (scenarioC ++ newline ++ "2,Bob")
  = (parseCSV scenarioC ++ [[("id", "2"); ("name", "Bob")]])%list.
Proof.
  apply (proj1 (X11_lines_append scenarioC "2,Bob" "id,name" ["1,Alice"] eq_refl)).
Defined.

(** ** Carriage returns *)

Lemma append_assoc (a b c : string) : (a ++ b) ++ c = a ++ (b ++ c).
Proof. induction a as [|x a IH]; simpl; [reflexivity | now rewrite IH]. Qed.

Lemma split_snoc (sep c : ascii) (s : string) :
  Ascii.eqb c sep = false ->
  exists init lst,
    Str.split sep s = (init ++ [lst])%list
    /\ Str.split sep (s ++ String c "")
       = (init ++ [(lst ++ String c "")%string])%list.
Proof.
  intros Hc. induction s as [|d s (init & lst & E1 & E2)]; simpl.
  - rewrite Hc. now exists [], "".
  - rewrite E1, E2. destruct (Ascii.eqb d sep).
    + now exists ("" :: init), lst.
    + destruct init as [|w ws]; simpl.
      * now exists [], (String d lst).
      * now exists (String d w :: ws), lst.
Qed.

Lemma trimEnd_snoc (w : ascii) (s : string) :
  Str.isWhiteSpace w = true -> Str.trimEnd (s ++ String w "") = Str.trimEnd s.
Proof.
  intros Hw. induction s as [|c s IH]; cbn [append Str.trimEnd].
  - now rewrite Hw.
  - now rewrite IH.
Qed.

Lemma trim_snoc (w : ascii) (s : string) :
  Str.isWhiteSpace w = true -> Str.trim (s ++ String w "") = Str.trim s.
Proof.
  intros Hw. unfold Str.trim.
  induction s as [|c s IH]; cbn [append Str.trimStart].
  - now rewrite Hw.
  - destruct (Str.isWhiteSpace c); [exact IH|].
    apply (trimEnd_snoc w (String c s) Hw).
Qed.

Lemma splitCells_snoc (w : ascii) (line : string) :
  Str.isWhiteSpace w = true -> Ascii.eqb w Str.comma = false ->
  splitCells (line ++ String w "") = splitCells line.
Proof.
  intros Hw Hc. unfold splitCells.
  destruct (split_snoc Str.comma w line Hc) as (init & lst & -> & ->).
  rewrite !map_app. cbn [map]. now rewrite trim_snoc.
Qed.

Lemma parseCSV_cells (csvText : string) :
  parseCSV csvText
  = match map splitCells (nonBlankLines csvText) with
    | [] => []
    | headers :: cells => map (fun values => fillRow headers 0 values []) cells
    end.
Proof.
  unfold parseCSV. destruct (nonBlankLines csvText) as [|first rest];
    [reflexivity|]. cbn [map]. now rewrite map_map.
Qed.

Lemma nonBlankLines_cells_snoc (w : ascii) (a : string) :
  Str.isWhiteSpace w = true -> Ascii.eqb w Str.comma = false ->
  Ascii.eqb w Str.LF = false ->
  map splitCells (nonBlankLines (a ++ String w ""))
    = map splitCells (nonBlankLines a).
Proof.
  intros Hw Hc Hl. unfold nonBlankLines.
  destruct (split_snoc Str.LF w a Hl) as (init & lst & -> & ->).
  rewrite !filter_app, !map_app. f_equal. cbn [filter].
  rewrite trim_snoc by assumption.
  destruct (Str.truthy (Str.trim lst)); [|reflexivity].
  cbn [map]. now rewrite splitCells_snoc.
Qed.

(** X12: carriage returns at line ends do not matter: a text whose line
    break is CR LF parses to the same records as the text with LF alone, and
    a CR at the very end of the text is ignored. *)
Theorem X12_crlf (a b : string) :
  parseCSV (a ++ String CR (newline ++ b)) = parseCSV (a ++ newline ++ b)
  /\ parseCSV (a ++ String CR "") = parseCSV a.
Proof.
  assert (Hcr : forall s, map splitCells (nonBlankLines (s ++ String CR ""))
                          = map splitCells (nonBlankLines s))
    by (intros s; now apply nonBlankLines_cells_snoc).
  split.
  - rewrite !parseCSV_cells.
    replace (a ++ String CR (newline ++ b))
      with ((a ++ String CR "") ++ newline ++ b)
      by (now rewrite append_assoc).
    now rewrite !nonBlankLines_app, !map_app, Hcr.
  - rewrite !parseCSV_cells. now rewrite Hcr.
Qed.

(** ** Columns *)

Lemma obj_update_keys (k v : string) (o : JSObject) :
  (In k (map fst o) -> map fst (obj_update k v o) = map fst o)
  /\ (~ In k (map fst o) -> map fst (obj_update k v o) = (map fst o ++ [k])%list).
Proof.
  induction o as [|[k' v'] o [IH1 IH2]]; simpl.
  - split; [contradiction | reflexivity].
  - destruct (String.eqb k' k) eqn:E; simpl.
    + apply String.eqb_eq in E. split; [reflexivity | intros H; elim H; now left].
    + apply String.eqb_neq in E. split; intros H.
      * f_equal. apply IH1. destruct H; [contradiction | assumption].
      * f_equal. apply IH2. intros H'. apply H. now right.
Qed.

Lemma obj_set_keys_In (k v x : string) (o : JSObject) :
  In x (map fst (obj_set k v o))
  <-> In x (map fst o) \/ (x = k /\ k <> "__proto__").
Proof.
  unfold obj_set. destruct (String.eqb k "__proto__") eqn:E.
  - apply String.eqb_eq in E. intuition.
  - apply String.eqb_neq in E. destruct (obj_update_keys k v o) as [H1 H2].
    destruct (in_dec string_dec k (map fst o)) as [Hin|Hin].
    + rewrite (H1 Hin). intuition. now subst.
    + rewrite (H2 Hin), in_app_iff. simpl. intuition.
Qed.

Lemma obj_set_keys_NoDup (k v : string) (o : JSObject) :
  NoDup (map fst o) -> NoDup (map fst (obj_set k v o)).
Proof.
  intros H. unfold obj_set. destruct (String.eqb k "__proto__"); [assumption|].
  destruct (obj_update_keys k v o) as [H1 H2].
  destruct (in_dec string_dec k (map fst o)) as [Hin|Hin].
  - now rewrite (H1 Hin).
  - rewrite (H2 Hin). apply NoDup_app; [assumption | repeat constructor; auto |].
    intros x Hx [<-|[]]. contradiction.
Qed.

Lemma obj_set_keys_indep (k a b : string) (o1 o2 : JSObject) :
  map fst o1 = map fst o2 ->
  map fst (obj_set k a o1) = map fst (obj_set k b o2).
Proof.
  intros H. unfold obj_set. destruct (String.eqb k "__proto__"); [assumption|].
  destruct (obj_update_keys k a o1) as [A1 A2].
  destruct (obj_update_keys k b o2) as [B1 B2].
  destruct (in_dec string_dec k (map fst o1)) as [Hin|Hin].
  - rewrite (A1 Hin). rewrite H in Hin. now rewrite (B1 Hin).
  - rewrite (A2 Hin). rewrite H in Hin. rewrite (B2 Hin). now rewrite H.
Qed.

Lemma fillRow_keys (headers : list string) :
  forall i values row,
    (NoDup (map fst row) -> NoDup (map fst (fillRow headers i values row)))
    /\ (forall x, In x (map fst (fillRow headers i values row))
                  <-> In x (map fst row)
                      \/ (In x headers /\ x <> "__proto__")).
Proof.
  induction headers as [|h hs IH]; intros i values row; simpl.
  - split; [auto | intuition].
  - destruct (IH (S i) values (obj_set h (nth i values "") row)) as [N M].
    split.
    + intros H. now apply N, obj_set_keys_NoDup.
    + intros x. rewrite M, obj_set_keys_In. intuition; subst; intuition.
Qed.

Lemma fillRow_keys_indep (headers : list string) :
  forall i j v1 v2 r1 r2, map fst r1 = map fst r2 ->
    map fst (fillRow headers i v1 r1) = map fst (fillRow headers j v2 r2).
Proof.
  induction headers as [|h hs IH]; intros i j v1 v2 r1 r2 H; simpl;
    [assumption|].
  apply IH. now apply obj_set_keys_indep.
Qed.

(** X13: all the records of a text have the same columns in the same order:
    the distinct cells of the first non-blank line other than [__proto__],
    each once; so a record never has more entries than the header has
    cells. *)
Theorem X13_same_columns (csvText first : string) (rest : list string)
    (row : JSObject) :
  nonBlankLines csvText = first :: rest ->
  In row (parseCSV csvText) ->
  NoDup (map fst row)
  /\ (forall k, In k (map fst row)
                <-> In k (splitCells first) /\ k <> "__proto__")
  /\ (forall row', In row' (parseCSV csvText) -> map fst row' = map fst row)
  /\ (length row <= length (splitCells first))%nat.
Proof.
  intros H Hrow. rewrite (parseCSV_recordsOf _ _ _ H) in *.
  unfold recordsOf in *. apply in_map_iff in Hrow as (line & <- & _).
  destruct (fillRow_keys (splitCells first) 0 (splitCells line) []) as [N M].
  assert (Hnd : NoDup (map fst (fillRow (splitCells first) 0 (splitCells line) [])))
    by (apply N; constructor).
  assert (Hin : forall k,
            In k (map fst (fillRow (splitCells first) 0 (splitCells line) []))
            <-> In k (splitCells first) /\ k <> "__proto__")
    by (intros k; rewrite M; simpl; tauto).
  split; [exact Hnd|]. split; [exact Hin|]. split.
  - intros row' Hr'. apply in_map_iff in Hr' as (line' & <- & _).
    now apply fillRow_keys_indep.
  - rewrite <- (length_map fst). apply NoDup_incl_length; [exact Hnd|].
    intros k Hk. now apply Hin.
Qed.

Lemma X13_same_columns_witness :
  NoDup (map fst (nth 0 (parseCSV scenarioA) [])).
Proof.
  apply (X13_same_columns scenarioA "name,val" ["A,10"; "B,90"]);
    [reflexivity | left; reflexivity].
Defined.

Lemma obj_update_fresh (k v : string) (o : JSObject) :
  ~ In k (map fst o) -> obj_update k v o = (o ++ [(k, v)])%list.
Proof.
  induction o as [|[k' v'] o IH]; simpl; intros H; [reflexivity|].
  destruct (String.eqb k' k) eqn:E.
  - apply String.eqb_eq in E. elim H. now left.
  - f_equal. apply IH. intros H'. apply H. now right.
Qed.

Lemma fillRow_distinct (headers : list string) :
  forall i values row,
    NoDup headers -> ~ In "__proto__" headers ->
    (forall h, In h headers -> ~ In h (map fst row)) ->
    fillRow headers i values row
    = (row ++ mapIndexed (fun h index => (h, nth index values "")) i headers)%list.
Proof.
  induction headers as [|h hs IH]; intros i values row Hnd Hp Hfresh; simpl.
  - now rewrite app_nil_r.
  - inversion Hnd as [|? ? Hh Hnd']; subst.
    assert (Eset : obj_set h (nth i values "") row
                   = (row ++ [(h, nth i values "")])%list).
    { unfold obj_set. destruct (String.eqb h "__proto__") eqn:E.
      - apply String.eqb_eq in E. elim Hp. now left.
      - apply obj_update_fresh, Hfresh. now left. }
    rewrite Eset, IH; [now rewrite <- app_assoc | assumption | |].
    + intros H. apply Hp. now right.
    + intros x Hx. rewrite map_app, in_app_iff. simpl.
      intros [H|[<-|[]]]; [|contradiction].
      apply (Hfresh x); [now right | assumption].
Qed.

(** X14: when the cells of the header line are distinct, none is
    [__proto__] and none is written with digits only (JavaScript lists such
    keys first), every record lists the header cells in order, each with the
    cell of the line at the same position: a line that is too short gets
    empty strings for the missing cells and the surplus cells of a line that
    is too long are dropped. *)
Theorem X14_distinct_headers (csvText first : string) (rest : list string) :
  nonBlankLines csvText = first :: rest ->
  NoDup (splitCells first) -> ~ In "__proto__" (splitCells first) ->
  Forall (fun h => integerKey h = false) (splitCells first) ->
  parseCSV csvText
  = map (fun line =>
           mapIndexed (fun h index => (h, nth index (splitCells line) ""))
             0 (splitCells first)) rest
  /\ (forall row, In row (parseCSV csvText) ->
        length row = length (splitCells first)).
Proof.
  intros H Hnd Hp _. rewrite (parseCSV_recordsOf _ _ _ H). unfold recordsOf.
  assert (E : forall line,
            fillRow (splitCells first) 0 (splitCells line) []
            = mapIndexed (fun h index => (h, nth index (splitCells line) ""))
                0 (splitCells first)).
  { intros line. rewrite fillRow_distinct; try assumption; [reflexivity|].
    intros h _ []. }
  split.
  - apply map_ext. exact E.
  - intros row Hrow. apply in_map_iff in Hrow as (line & <- & _).
    now rewrite E, mapIndexed_length.
Qed.

Lemma X14_distinct_headers_witness :
  parseCSV ("a,b,c" ++ newline ++ "1" ++ newline ++ "1,2,3,4")
  = [[("a", "1"); ("b", ""); ("c", "")]; [("a", "1"); ("b", "2"); ("c", "3")]].
Proof.
  refine (proj1 (X14_distinct_headers
                   ("a,b,c" ++ newline ++ "1" ++ newline ++ "1,2,3,4")
                   "a,b,c" ["1"; "1,2,3,4"] eq_refl _ _ _)).
  - repeat constructor; simpl; intuition discriminate.
  - simpl. intuition discriminate.
  - repeat constructor.
Defined.

(** ** Characters of a cell *)

Lemma split_chars (sep : ascii) (s w : string) :
  In w (Str.split sep s) -> ~ In sep (chars w) /\ incl (chars w) (chars s).
Proof.
  revert w. induction s as [|c s IH]; simpl; intros w H.
  - destruct H as [<-|[]]. split; [intros [] | intros x []].
  - destruct (Ascii.eqb c sep) eqn:E.
    + destruct H as [<-|H].
      * split; [intros [] | intros x []].
      * destruct (IH w H) as [H1 H2]. split; [assumption|].
        intros x Hx. right. now apply H2.
    + apply Ascii.eqb_neq in E. pose proof (split_not_nil sep s) as Hne.
      destruct (Str.split sep s) as [|w0 ws]; [contradiction|].
      destruct H as [<-|H].
      * destruct (IH w0 (or_introl eq_refl)) as [H1 H2]. split.
        -- simpl. intros [H|H]; [now apply E | contradiction].
        -- intros x [<-|Hx]; [now left | right; now apply H2].
      * destruct (IH w (or_intror H)) as [H1 H2]. split; [assumption|].
        intros x Hx. right. now apply H2.
Qed.

Lemma trimStart_chars (s : string) : incl (chars (Str.trimStart s)) (chars s).
Proof.
  induction s as [|c s IH]; simpl; [intros x []|].
  destruct (Str.isWhiteSpace c); [|apply incl_refl].
  intros x Hx. right. now apply IH.
Qed.

Lemma trimEnd_chars (s : string) : incl (chars (Str.trimEnd s)) (chars s).
Proof.
  induction s as [|c s IH]; [intros x []|]. cbn [Str.trimEnd].
  destruct (Str.trimEnd s) as [|d t] eqn:E.
  - destruct (Str.isWhiteSpace c); [intros x [] |].
    intros x [<-|[]]. now left.
  - intros x [<-|Hx]; [now left|]. right. apply IH. exact Hx.
Qed.

Lemma dropTrailingQuote_chars (s : string) :
  incl (chars (Str.dropTrailingQuote s)) (chars s).
Proof.
  induction s as [|c s IH]; [intros x []|]. cbn [Str.dropTrailingQuote].
  destruct s as [|d t].
  - destruct (Ascii.eqb c Str.quote); [intros x [] | apply incl_refl].
  - intros x [<-|Hx]; [now left|]. right. apply IH. exact Hx.
Qed.

Lemma cell_chars (v : string) :
  incl (chars (Str.unquote (Str.trim v))) (chars v).
Proof.
  unfold Str.unquote, Str.trim.
  eapply incl_tran; [apply dropTrailingQuote_chars|].
  eapply incl_tran; [|eapply incl_tran;
                      [apply trimEnd_chars | apply trimStart_chars]].
  destruct (Str.trimEnd (Str.trimStart v)) as [|c t]; [apply incl_refl|].
  simpl. destruct (Ascii.eqb c Str.quote); [|apply incl_refl].
  intros x Hx. now right.
Qed.

Lemma obj_set_entries (k v : string) (o : JSObject) (e : string * string) :
  In e (obj_set k v o) -> In e o \/ e = (k, v).
Proof.
  unfold obj_set. destruct (String.eqb k "__proto__"); [now left|].
  induction o as [|[k' v'] o IH]; simpl.
  - intros [<-|[]]. now right.
  - destruct (String.eqb k' k) eqn:E.
    + apply String.eqb_eq in E. subst k'. intros [<-|H]; [now right | left; now right].
    + intros [<-|H]; [left; now left|].
      destruct (IH H) as [H'|H']; [left; now right | now right].
Qed.

Lemma fillRow_entries (headers : list string) :
  forall i values row e, In e (fillRow headers i values row) ->
    In e row
    \/ (In (fst e) headers /\ (In (snd e) values \/ snd e = "")).
Proof.
  induction headers as [|h hs IH]; intros i values row e H; simpl in H;
    [now left|].
  destruct (IH _ _ _ _ H) as [H'|[H1 H2]].
  - destruct (obj_set_entries _ _ _ _ H') as [H''| ->]; [now left|].
    right. simpl. split; [now left|].
    destruct (nth_in_or_default i values "") as [Hn|Hn]; [now left | now right].
  - right. split; [now right | assumption].
Qed.

(** X15: no key and no value of a record contains a comma or a line break:
    the parser cuts at every comma, also inside quotes, so a quoted field
    with a comma never comes out as one cell. *)
Theorem X15_no_comma_in_cells (csvText : string) (row : JSObject)
    (k v : string) :
  In row (parseCSV csvText) -> In (k, v) row ->
  ~ In ","%char (chars k) /\ ~ In ","%char (chars v)
  /\ ~ In Str.LF (chars k) /\ ~ In Str.LF (chars v).
Proof.
  intros Hrow He.
  destruct (nonBlankLines csvText) as [|first rest] eqn:E.
  - unfold parseCSV in Hrow. now rewrite E in Hrow.
  - rewrite (parseCSV_recordsOf _ _ _ E) in Hrow. unfold recordsOf in Hrow.
    apply in_map_iff in Hrow as (line & <- & Hline).
    assert (Hcell : forall l c, In l (first :: rest) -> In c (splitCells l) ->
              ~ In ","%char (chars c) /\ ~ In Str.LF (chars c)).
    { intros l c Hl Hc. unfold splitCells in Hc.
      apply in_map_iff in Hc as (w & <- & Hw).
      destruct (split_chars Str.comma l w Hw) as [W1 W2].
      assert (Hl' : In l (Str.split Str.LF csvText)).
      { rewrite <- E in Hl. unfold nonBlankLines in Hl.
        now apply filter_In in Hl. }
      destruct (split_chars Str.LF csvText l Hl') as [L1 _].
      split; intros H; apply cell_chars in H; [now apply W1|].
      apply L1, W2, H. }
    destruct (fillRow_entries _ _ _ _ _ He) as [[]|[Hk Hv]]. simpl in Hk, Hv.
    destruct (Hcell first k (or_introl eq_refl) Hk) as [K1 K2].
    assert (V : ~ In ","%char (chars v) /\ ~ In Str.LF (chars v)).
    { destruct Hv as [Hv| ->]; [|split; intros []].
      apply (Hcell line v); [now right | assumption]. }
    tauto.
Qed.

Lemma X15_no_comma_in_cells_witness :
  ~ In ","%char (chars "10").
Proof.
  apply (X15_no_comma_in_cells scenarioA (nth 0 (parseCSV scenarioA) []) "val" "10").
  - left. reflexivity.
  - right. left. reflexivity.
Defined.

(** ** Repeated column names *)

Lemma fillRow_app (a b : list string) :
  forall i values row,
    fillRow (a ++ b) i values row
    = fillRow b (i + length a) values (fillRow a i values row).
Proof.
  induction a as [|h a IH]; intros i values row; simpl.
  - now rewrite Nat.add_0_r.
  - rewrite IH. f_equal. lia.
Qed.

Lemma obj_update_same (k v : string) (o : JSObject) : In (k, v) (obj_update k v o).
Proof.
  induction o as [|[k' v'] o IH]; simpl; [now left|].
  destruct (String.eqb k' k) eqn:E.
  - apply String.eqb_eq in E. subst. now left.
  - now right.
Qed.

Lemma obj_set_other (k v : string) (o : JSObject) (e : string * string) :
  fst e <> k -> In e o -> In e (obj_set k v o).
Proof.
  intros Hne He. unfold obj_set.
  destruct (String.eqb k "__proto__"); [assumption|].
  induction o as [|[k' v'] o IH]; simpl; [contradiction|].
  destruct He as [<-|He].
  - simpl in Hne. apply String.eqb_neq in Hne. rewrite Hne. now left.
  - destruct (String.eqb k' k); right; [assumption | now apply IH].
Qed.

Lemma fillRow_other (headers : list string) :
  forall i values row e, ~ In (fst e) headers -> In e row ->
    In e (fillRow headers i values row).
Proof.
  induction headers as [|h hs IH]; intros i values row e Hne He; simpl;
    [assumption|].
  apply IH; [intros H; apply Hne; now right|].
  apply obj_set_other; [|assumption]. intros H. apply Hne. now left.
Qed.

(** X16: when a column name occurs several times in the header, a record
    keeps one entry for it, holding the cell under its last occurrence: the
    cells under the earlier occurrences are lost, and with them their
    weight. *)
Theorem X16_last_duplicate_wins (before after values : list string)
    (k v : string) :
  k <> "__proto__" -> ~ In k after ->
  let row := fillRow (before ++ k :: after) 0 values [] in
  In (k, nth (length before) values "") row
  /\ (In (k, v) row -> v = nth (length before) values "").
Proof.
  intros Hp Hafter row.
  assert (Hin : In (k, nth (length before) values "") row).
  { unfold row. rewrite fillRow_app. cbn [fillRow Nat.add].
    apply fillRow_other; [exact Hafter|]. unfold obj_set.
    apply String.eqb_neq in Hp. rewrite Hp. apply obj_update_same. }
  split; [exact Hin|]. intros Hv.
  destruct (fillRow_keys (before ++ k :: after) 0 values []) as [N _].
  specialize (N (NoDup_nil _)). fold row in N.
  clearbody row. induction row as [|[k' v'] o IH]; [contradiction|].
  simpl in N. inversion N as [|? ? Hk' N']; subst.
  destruct Hin as [Hin|Hin], Hv as [Hv|Hv].
  - congruence.
  - injection Hin as -> _. elim Hk'. now apply (in_map fst _ (k, v)).
  - injection Hv as -> _. elim Hk'.
    now apply (in_map fst _ (k, nth (length before) values "")).
  - now apply IH.
Qed.

Lemma X16_last_duplicate_wins_witness :
  In ("x", "7") (fillRow ["x"; "y"; "x"] 0 ["5"; "6"; "7"] []).
Proof.
  apply (X16_last_duplicate_wins ["x"; "y"] [] ["5"; "6"; "7"] "x" "7").
  - discriminate.
  - intros [].
Defined.

(** ** A dominant row *)

(** X17: a report has no "Alta Prioridad" row exactly when the contribution
    of its first row, the heaviest, is not at most 80: that row holds more
    than 80 percent of the total by itself. *)
Theorem X17_dominant_row (rows : list JSObject) (r0 : RowAnalysis)
    (rest : list RowAnalysis) :
  rowAnalyses (performParetoAnalysis rows) = r0 :: rest ->
  (highPriority (summary (performParetoAnalysis rows)) = 0%nat
   <-> ~ contributionOf r0 <= 80).
Proof.
  intros E.
  assert (H0 : nth_error (rowAnalyses (performParetoAnalysis rows)) 0 = Some r0)
    by now rewrite E.
  assert (I0 : In r0 (rowAnalyses (performParetoAnalysis rows)))
    by (rewrite E; now left).
  assert (Hcum : cumulativeOf r0 == contributionOf r0).
  { rewrite report_unfold in H0.
    rewrite (cumulative_running _ _ _ _ _ H0), shareOf_0.
    rewrite <- report_unfold, E. simpl. ring. }
  destruct (report_class_iff _ _ I0) as (HA & _ & _).
  change (highPriority (summary (performParetoAnalysis rows)))
    with (countClass ALTA (rowAnalyses (performParetoAnalysis rows))).
  split.
  - intros Hz Hle.
    assert (Hc : classification r0 = ALTA) by (apply HA; lra).
    pose proof (countClass_pos ALTA _ r0 I0 Hc). lia.
  - intros Hgt. unfold countClass.
    rewrite (filter_none (fun r => String.eqb (classification r) ALTA));
      [reflexivity|].
    rewrite Forall_forall. intros r Hr. apply String.eqb_neq. intros Hc.
    destruct (report_class_iff _ _ Hr) as (HAr & _ & _). apply HAr in Hc.
    assert (Hle : cumulativeOf r0 <= cumulativeOf r).
    { rewrite E in Hr. destruct Hr as [<-|Hr]; [apply Qle_refl|].
      pose proof (report_cumulative_sorted rows) as Hs. rewrite E in Hs.
      inversion Hs as [|? ? _ Hall]; subst. rewrite Forall_forall in Hall.
      now apply Hall. }
    lra.
Qed.

Lemma X17_dominant_row_witness :
  highPriority (summary (performParetoAnalysis (parseCSV scenarioA))) = 0%nat.
Proof.
  apply (X17_dominant_row (parseCSV scenarioA)
           (nth 0 (rowAnalyses (performParetoAnalysis (parseCSV scenarioA))) noRow)
           [nth 1 (rowAnalyses (performParetoAnalysis (parseCSV scenarioA))) noRow]);
    [reflexivity | vm_compute; intros H; apply H; reflexivity].
Defined.
